(** * GameSync: the Steam client, its TTL cache and the library overlap

    A shallow embedding of [src/services/steamApi.js] (class
    [SteamApiService]), [src/utils/gameCache.js] (class [GameCache]),
    [src/utils/manualEntry.js] and the constants of [config/api.js], with the
    properties of the fetch / validate / cache pipeline, of the N-way library
    intersection and of the manual entry of games.

    Conventions of the embedding.
    - JavaScript values that reach a coercion are values of [value]; [ToString]
      is the abstract operation of the language with that name.
    - [Date.now()] reads the field [clock] of the world; time passes only where
      the program waits: in [setTimeout], while the transport answers, and
      between two calls of the caller ([elapse]).
    - An [async] method is a computation in the monad [M]: it threads the world
      and either returns a value or throws an [error].  Calls are run one after
      the other, as the loop of [findOverlappingGames] awaits them.
    - The transport [fetch] is a parameter: its answer may depend on the number
      of calls made before and on the URL.  A body that parses has the wire
      shape the service reads, [{ response?: { game_count?, games?: [...] } }];
      an exception is an object with a [name] and a [message]. *)

From Stdlib Require Import ZArith String Ascii List Bool Lia DecimalString.
From stdpp Require Import base option gmap strings list.

Set Warnings "-register-all".

Open Scope Z_scope.

(** ** JavaScript values and the coercions the code relies on *)

(** The values an identifier argument can be.  [VNum z] is a Number whose value
    is the integer [z]; it stands for the integers below 10^21 in magnitude
    whose decimal numeral is what Number::toString prints (every safe integer,
    and every power of ten up to 10^20, are such). *)
Inductive value : Type :=
| VUndefined
| VNull
| VBool (b : bool)
| VNum (z : Z)
| VStr (s : string)
| VArr (elements : list value).

(** ToString.  An array prints its elements separated by commas, a null or
    undefined element printing as the empty string (Array.prototype.join). *)
Fixpoint ToString (v : value) : string :=
  match v with
  | VUndefined => "undefined"
  | VNull => "null"
  | VBool true => "true"
  | VBool false => "false"
  | VNum z => NilZero.string_of_int (Z.to_int z)
  | VStr s => s
  | VArr elements =>
      (fix join (l : list value) : string :=
         match l with
         | [] => ""
         | x :: rest =>
             let here := match x with
                         | VUndefined | VNull => ""
                         | _ => ToString x
                         end in
             match rest with
             | [] => here
             | _ :: _ => here +:+ "," +:+ join rest
             end
         end) elements
  end.

(** [\d] without the unicode flag: the ten ASCII digits. *)
Definition is_digit (c : ascii) : bool :=
  let n := nat_of_ascii c in (48 <=? n)%nat && (n <=? 57)%nat.

(** [/^\d{n}$/] against the input that is left: [n] digits and then the end of
    the input (no [m] flag, so [$] is the end of the string only). *)
Fixpoint match_digits (n : nat) (s : string) : bool :=
  match n, s with
  | O, EmptyString => true
  | S n', String c s' => is_digit c && match_digits n' s'
  | _, _ => false
  end.

(** [RegExp.prototype.test] coerces its argument with ToString. *)
Definition regexp_digits_test (n : nat) (v : value) : bool :=
  match_digits n (ToString v).

(** [String.prototype.includes]. *)
Fixpoint includes (s sub : string) : bool :=
  String.prefix sub s ||
  match s with
  | EmptyString => false
  | String _ s' => includes s' sub
  end.

(** ** Errors *)

(** An exception object, with the two properties the code inspects. *)
Record error : Type := mkError { name : string; message : string }.

(** [new Error(m)] and [new TypeError(m)]. *)
Definition Error (m : string) : error := {| name := "Error"; message := m |}.
Definition TypeError (m : string) : error := {| name := "TypeError"; message := m |}.

(** ** config/api.js *)

Module STEAM_CONFIG.
Definition API_KEY : string := "40780738BCB913A5D618F02F4DAF6EED".
Definition BASE_URL : string := "https://api.steampowered.com".
Definition GET_OWNED_GAMES : string := "/IPlayerService/GetOwnedGames/v0001/".
Definition REQUESTS_PER_SECOND : Z := 1.
Definition CACHE_DURATION : Z := 60 * 60 * 1000.
End STEAM_CONFIG.

Module STEAM_ERRORS.
Definition PRIVATE_PROFILE : string := "PRIVATE_PROFILE".
Definition INVALID_STEAM_ID : string := "INVALID_STEAM_ID".
Definition RATE_LIMIT_EXCEEDED : string := "RATE_LIMIT_EXCEEDED".
Definition API_UNAVAILABLE : string := "API_UNAVAILABLE".
Definition NETWORK_ERROR : string := "NETWORK_ERROR".
End STEAM_ERRORS.

(** The query string of [DEFAULT_PARAMS], as [URLSearchParams] prints it
    after the key and the identifier. *)
Definition DEFAULT_PARAMS : string :=
  "&format=json&include_appinfo=true&include_played_free_games=true".

(** The message [findOverlappingGames] throws on too short a list. *)
Definition INSUFFICIENT_IDENTIFIERS : string :=
  "At least 2 Steam IDs required to find overlaps".

(** ** Wire shape of the owned-games answer *)

(** A raw game record, with the fields the service reads. *)
Module Game.
Record t : Type := mk {
  appid : Z;
  name : string;
  img_icon_url : option string
}.
End Game.
Abbreviation game := Game.t.

(** [{ game_count?, games? }]: [None] is an absent property. *)
Record owned_games : Type := mkOwnedGames {
  game_count : option Z;
  games : option (list game)
}.

(** [{ response? }], what [response.json()] resolves to. *)
Record body : Type := mkBody { response : option owned_games }.

(** What the transport hands back: [ok], [status], and the outcome of
    [json()], which rejects on a body that does not parse. *)
Record http_response : Type := mkResponse {
  ok : bool;
  status : Z;
  json : error + body
}.

(** One answer of the transport to [fetch(url)]: the promise rejects, or it
    resolves to a response; [latency] is the time the call took. *)
Inductive reply : Type :=
| Rejects (latency : Z) (e : error)
| Resolves (latency : Z) (r : http_response).

(** ** src/utils/gameCache.js *)

Module GameCache.
Section Cache.
Context {payload : Type}.

(** [{ data, timestamp }], the value kept under a key. *)
Record entry : Type := mkEntry { data : payload; timestamp : Z }.

(** The object: the [Map] and the duration read from the configuration. *)
Record t : Type := mk {
  cache : gmap string entry;
  cacheDuration : Z
}.

(** [constructor()]. *)
Definition new : t :=
  {| cache := ∅; cacheDuration := STEAM_CONFIG.CACHE_DURATION |}.

(** [generateKey(steamId, requestType)]: the template literal coerces the
    identifier. *)
Definition generateKey (steamId : value) (requestType : string) : string :=
  "steam_" +:+ requestType +:+ "_" +:+ ToString steamId.

(** [get(steamId, requestType)], [now] being the reading of [Date.now()];
    [None] is the [null] it returns. *)
Definition get (now : Z) (steamId : value) (requestType : string) (c : t)
  : option payload * t :=
  let key := generateKey steamId requestType in
  match cache c !! key with
  | None => (None, c)
  | Some cached =>
      if now - timestamp cached >? cacheDuration c
      then (None, {| cache := delete key (cache c);
                     cacheDuration := cacheDuration c |})
      else (Some (data cached), c)
  end.

(** [set(steamId, data, requestType)]. *)
Definition set (now : Z) (steamId : value) (d : payload) (requestType : string)
    (c : t) : t :=
  let key := generateKey steamId requestType in
  {| cache := <[key := {| data := d; timestamp := now |}]> (cache c);
     cacheDuration := cacheDuration c |}.

(** [cleanup()]: the loop over the entries of the map, which deletes from the
    map the entries older than the duration.  The order in which the entries
    are visited has no influence on the outcome. *)
Definition cleanup (now : Z) (c : t) : t :=
  {| cache :=
       map_fold
         (fun key value m =>
            if now - timestamp value >? cacheDuration c then delete key m else m)
         (cache c) (cache c);
     cacheDuration := cacheDuration c |}.

(** [clear()]. *)
Definition clear (c : t) : t :=
  {| cache := ∅; cacheDuration := cacheDuration c |}.
End Cache.
Arguments entry : clear implicits.
Arguments t : clear implicits.

(** The object [getStats()] returns. *)
Module Stats.
Record t : Type := mk {
  totalEntries : Z;
  validEntries : Z;
  expiredEntries : Z;
  cacheDuration : Z
}.
End Stats.

(** [getStats()]: the loop over the values counts the entries older than the
    duration and the others; [totalEntries] is the size of the map. *)
Definition getStats {payload : Type} (now : Z) (c : t payload) : Stats.t :=
  let counts :=
    map_fold
      (fun _ value (counts : Z * Z) =>
         let (validEntries, expiredEntries) := counts in
         if now - timestamp value >? cacheDuration c
         then (validEntries, expiredEntries + 1)
         else (validEntries + 1, expiredEntries))
      (0, 0) (cache c) in
  {| Stats.totalEntries := Z.of_nat (size (cache c));
     Stats.validEntries := fst counts;
     Stats.expiredEntries := snd counts;
     Stats.cacheDuration := cacheDuration c |}.
End GameCache.

(** ** src/services/steamApi.js *)

(** The object [getOwnedGames] builds, caches and returns.  [fetchedAt] is the
    instant that [new Date().toISOString()] prints. *)
Module Snapshot.
Record t : Type := mk {
  steamId : value;
  gameCount : Z;
  games : list game;
  fetchedAt : Z
}.
End Snapshot.
Abbreviation snapshot := Snapshot.t.

(** An element of the local array [libraries] of [findOverlappingGames]. *)
Module Library.
Record t : Type := mk {
  steamId : value;
  games : list game;
  error : option string
}.
End Library.
Abbreviation library := Library.t.

(** An element of the array [findOverlappingGames] returns. *)
Module Overlap.
Record t : Type := mk {
  appId : Z;
  name : string;
  imgIconUrl : option string;
  ownedBy : Z
}.
End Overlap.
Abbreviation overlap := Overlap.t.

(** The state the service works on: the singleton cache, the two counters of
    the service object, the clock, the URLs handed to the transport so far
    (oldest first) and the lines written with [console.warn]. *)
Record world : Type := mkWorld {
  gameCache : GameCache.t snapshot;
  requestCount : Z;
  lastRequestTime : Z;
  clock : Z;
  fetched : list string;
  warnings : list (string * string)
}.

(** The service and the cache as the two modules create them. *)
Definition initial (now : Z) : world :=
  {| gameCache := GameCache.new; requestCount := 0; lastRequestTime := 0;
     clock := now; fetched := []; warnings := [] |}.

Definition with_gameCache (c : GameCache.t snapshot) (w : world) : world :=
  {| gameCache := c; requestCount := requestCount w;
     lastRequestTime := lastRequestTime w; clock := clock w;
     fetched := fetched w; warnings := warnings w |}.

Definition with_clock (t : Z) (w : world) : world :=
  {| gameCache := gameCache w; requestCount := requestCount w;
     lastRequestTime := lastRequestTime w; clock := t;
     fetched := fetched w; warnings := warnings w |}.

(** Time passing between two calls of the caller. *)
Definition elapse (dt : Z) (w : world) : world := with_clock (clock w + dt) w.

(** *** The monad of asynchronous methods *)

Inductive result (A : Type) : Type :=
| Returns (a : A)
| Throws (e : error).
Arguments Returns {A} a.
Arguments Throws {A} e.

Definition M (A : Type) : Type := world -> result A * world.

Definition ret {A} (a : A) : M A := fun w => (Returns a, w).

Definition throw {A} (e : error) : M A := fun w => (Throws e, w).

Definition bind {A B} (c : M A) (k : A -> M B) : M B :=
  fun w =>
    match c w with
    | (Returns a, w') => k a w'
    | (Throws e, w') => (Throws e, w')
    end.

(** [try { c } catch (error) { h error }]. *)
Definition try_catch {A} (c : M A) (h : error -> M A) : M A :=
  fun w =>
    match c w with
    | (Returns a, w') => (Returns a, w')
    | (Throws e, w') => h e w'
    end.

Declare Scope M_scope.
Delimit Scope M_scope with M.
Bind Scope M_scope with M.
Notation "'let*' x := c 'in' k" := (bind c (fun x => k))
  (at level 10, x name, c at level 100, k at level 200) : M_scope.
Notation "c ;;; k" := (bind c (fun _ => k))
  (at level 100, k at level 200, right associativity) : M_scope.
Open Scope M_scope.

(** [Date.now()]. *)
Definition Date_now : M Z := fun w => (Returns (clock w), w).

(** [await new Promise(resolve => setTimeout(resolve, ms))]. *)
Definition sleep (ms : Z) : M unit := fun w => (Returns tt, elapse ms w).

(** [console.warn]. *)
Definition console_warn (id : string) (msg : string) : M unit :=
  fun w => (Returns tt,
            {| gameCache := gameCache w; requestCount := requestCount w;
               lastRequestTime := lastRequestTime w; clock := clock w;
               fetched := fetched w; warnings := warnings w ++ [(id, msg)] |}).

(** [gameCache.get] and [gameCache.set] on the singleton. *)
Definition gameCache_get (steamId : value) (requestType : string)
  : M (option snapshot) :=
  fun w =>
    let (r, c) := GameCache.get (clock w) steamId requestType (gameCache w) in
    (Returns r, with_gameCache c w).

Definition gameCache_set (steamId : value) (d : snapshot) (requestType : string)
  : M unit :=
  fun w =>
    (Returns tt,
     with_gameCache (GameCache.set (clock w) steamId d requestType (gameCache w)) w).

Definition gets {A} (f : world -> A) : M A := fun w => (Returns (f w), w).

(** [this.lastRequestTime = t; this.requestCount++]. *)
Definition record_request (t : Z) : M unit :=
  fun w => (Returns tt,
            {| gameCache := gameCache w; requestCount := requestCount w + 1;
               lastRequestTime := t; clock := clock w;
               fetched := fetched w; warnings := warnings w |}).

(** [x || 0] on an optional number: an absent property and the number 0 are
    the falsy cases. *)
Definition or_zero (x : option Z) : Z :=
  match x with
  | Some n => if n =? 0 then 0 else n
  | None => 0
  end.

(** [validateSteamId(steamId)]. *)
Definition validateSteamId (steamId : value) : bool :=
  regexp_digits_test 17 steamId.

(** [enforceRateLimit()]. *)
Definition enforceRateLimit : M unit :=
  let* now := Date_now in
  let* last := gets lastRequestTime in
  let timeSinceLastRequest := now - last in
  let minInterval := 1000 / STEAM_CONFIG.REQUESTS_PER_SECOND in
  (if timeSinceLastRequest <? minInterval
   then sleep (minInterval - timeSinceLastRequest)
   else ret tt) ;;;
  let* t := Date_now in
  record_request t.

(** The URL of the owned-games request.  [URLSearchParams] leaves the
    characters of a validated identifier as they are. *)
Definition owned_games_url (steamId : value) : string :=
  STEAM_CONFIG.BASE_URL +:+ STEAM_CONFIG.GET_OWNED_GAMES +:+ "?" +:+
  "key=" +:+ STEAM_CONFIG.API_KEY +:+ "&steamid=" +:+ ToString steamId +:+
  DEFAULT_PARAMS.

(** The predicate of [libraries.every(... .some(...))] in
    [findOverlappingGames]. *)
Definition appearsInAll (libraries : list library) (g : game) : bool :=
  forallb
    (fun library =>
       existsb (fun libGame => Game.appid libGame =? Game.appid g)
               (Library.games library))
    libraries.

(** The second loop of [findOverlappingGames]: [n] is [steamIds.length]. *)
Definition overlappingGames (n : Z) (libraries : list library)
    (firstLibrary : list game) : list overlap :=
  fold_left
    (fun acc g =>
       if appearsInAll libraries g
       then acc ++ [ {| Overlap.appId := Game.appid g;
                        Overlap.name := Game.name g;
                        Overlap.imgIconUrl := Game.img_icon_url g;
                        Overlap.ownedBy := n |} ]
       else acc)
    firstLibrary [].

Section SteamApiService.
(** The transport: the answer to the [n]-th call (counted from 0), made
    with [url]. *)
Variable fetch : nat -> string -> reply.

(** [await fetch(url)]. *)
Definition await_fetch (url : string) : M http_response :=
  fun w =>
    let after (t : Z) :=
      {| gameCache := gameCache w; requestCount := requestCount w;
         lastRequestTime := lastRequestTime w; clock := clock w + t;
         fetched := fetched w ++ [url]; warnings := warnings w |} in
    match fetch (length (fetched w)) url with
    | Rejects t e => (Throws e, after t)
    | Resolves t r => (Returns r, after t)
    end.

(** [await response.json()]. *)
Definition await_json (r : http_response) : M body :=
  match json r with
  | inl e => throw e
  | inr data => ret data
  end.

(** [makeRequest(url)]. *)
Definition makeRequest (url : string) : M body :=
  enforceRateLimit ;;;
  try_catch
    (let* response := await_fetch url in
     if negb (ok response) then
       if status response =? 429
       then throw (Error STEAM_ERRORS.RATE_LIMIT_EXCEEDED)
       else if status response =? 403
       then throw (Error STEAM_ERRORS.PRIVATE_PROFILE)
       else throw (Error STEAM_ERRORS.API_UNAVAILABLE)
     else
       let* data := await_json response in
       ret data)
    (fun error =>
       if String.eqb (name error) "TypeError" || includes (message error) "fetch"
       then throw (Error STEAM_ERRORS.NETWORK_ERROR)
       else throw error).

(** The part of [getOwnedGames] after the cache lookup.  An object and an
    array, the empty array too, are truthy: [!data.response] and
    [!data.response.games] hold for an absent property only. *)
Definition requestOwnedGames (steamId : value) : M snapshot :=
  let url := owned_games_url steamId in
  try_catch
    (let* data := makeRequest url in
     match response data with
     | None => throw (Error STEAM_ERRORS.PRIVATE_PROFILE)
     | Some r =>
         match games r with
         | None => throw (Error STEAM_ERRORS.PRIVATE_PROFILE)
         | Some gs =>
             let* now := Date_now in
             let result :=
               {| Snapshot.steamId := steamId;
                  Snapshot.gameCount := or_zero (game_count r);
                  Snapshot.games := gs;
                  Snapshot.fetchedAt := now |} in
             gameCache_set steamId result "games" ;;;
             ret result
         end
     end)
    (fun error => throw error).

(** [getOwnedGames(steamId, useCache)]. *)
Definition getOwnedGames (steamId : value) (useCache : bool) : M snapshot :=
  if negb (validateSteamId steamId)
  then throw (Error STEAM_ERRORS.INVALID_STEAM_ID)
  else if useCache then
    let* cached := gameCache_get steamId "games" in
    match cached with
    | Some hit => ret hit
    | None => requestOwnedGames steamId
    end
  else requestOwnedGames steamId.

(** The first loop of [findOverlappingGames]; [libraries] is the array
    filled so far. *)
Fixpoint fetchLibraries (steamIds : list value) (libraries : list library)
  : M (list library) :=
  match steamIds with
  | [] => ret libraries
  | steamId :: rest =>
      let* libraries' :=
        try_catch
          (let* lib := getOwnedGames steamId true in
           ret (libraries ++ [ {| Library.steamId := steamId;
                                  Library.games := Snapshot.games lib;
                                  Library.error := None |} ]))
          (fun error =>
             console_warn (ToString steamId) (message error) ;;;
             ret (libraries ++ [ {| Library.steamId := steamId;
                                    Library.games := [];
                                    Library.error := Some (message error) |} ]))
      in
      fetchLibraries rest libraries'
  end.

(** [findOverlappingGames(steamIds)]; [None] is a missing list ([null] or
    [undefined]). *)
Definition findOverlappingGames (steamIds : option (list value))
  : M (list overlap) :=
  match steamIds with
  | None => throw (Error INSUFFICIENT_IDENTIFIERS)
  | Some ids =>
      if (length ids <? 2)%nat
      then throw (Error INSUFFICIENT_IDENTIFIERS)
      else
        let* libraries := fetchLibraries ids [] in
        match libraries with
        | [] => ret []
        | first :: _ =>
            ret (overlappingGames (Z.of_nat (length ids)) libraries
                                  (Library.games first))
        end
  end.
End SteamApiService.

(** ** Derived notions used in the statements *)

(** The ten characters [\d] stands for. *)
Definition decimal_digits : list ascii := list_ascii_of_string "0123456789".

(** The world once [enforceRateLimit] has let a request through: the request
    goes out at the later of now and one interval after the last one. *)
Definition granted (w : world) : world :=
  let t := Z.max (clock w)
                 (lastRequestTime w + 1000 / STEAM_CONFIG.REQUESTS_PER_SECOND) in
  {| gameCache := gameCache w; requestCount := requestCount w + 1;
     lastRequestTime := t; clock := t;
     fetched := fetched w; warnings := warnings w |}.

(** The world once the transport has answered the request for [url], after
    [t] milliseconds. *)
Definition answered (url : string) (t : Z) (w : world) : world :=
  let g := granted w in
  {| gameCache := gameCache g; requestCount := requestCount g;
     lastRequestTime := lastRequestTime g; clock := clock g + t;
     fetched := fetched g ++ [url]; warnings := warnings g |}.

(** The test of the [catch] clause of [makeRequest]. *)
Definition looks_like_network_failure (e : error) : bool :=
  String.eqb (name e) "TypeError" || includes (message e) "fetch".

(** A call of [getOwnedGames] gets as far as the transport: the identifier is
    valid and the cache is not consulted or has nothing usable. *)
Definition reaches_network (steamId : value) (useCache : bool) (w : world) : Prop :=
  validateSteamId steamId = true /\
  (useCache = false \/
   fst (GameCache.get (clock w) steamId "games" (gameCache w)) = None).

(** The world in which [getOwnedGames] goes on after its cache lookup, when
    the lookup gave nothing: the lookup has deleted an entry that was there
    and too old. *)
Definition looked_up (steamId : value) (useCache : bool) (w : world) : world :=
  if useCache
  then with_gameCache
         (snd (GameCache.get (clock w) steamId "games" (gameCache w))) w
  else w.

(** The snapshot [getOwnedGames] builds from the answer [r] at time [now]. *)
Definition snapshot_of (steamId : value) (r : owned_games) (gs : list game)
    (now : Z) : snapshot :=
  {| Snapshot.steamId := steamId;
     Snapshot.gameCount := or_zero (game_count r);
     Snapshot.games := gs;
     Snapshot.fetchedAt := now |}.

(** The games list of an answer, an absent list counting as empty. *)
Definition games_or_empty (data : body) : list game :=
  match response data with
  | Some r => default [] (games r)
  | None => []
  end.

(** ** Statements of the specification that the code does not satisfy as
    they are written; each is refuted below and followed by the statement
    that holds. *)

(** "The validator accepts exactly the strings of 17 decimal digits, and so
    no value that is not a string." *)
Definition accepts_only_strings : Prop :=
  forall v : value,
    validateSteamId v = true <->
    exists s, v = VStr s /\ String.length s = 17%nat /\
              Forall (fun c => In c decimal_digits) (list_ascii_of_string s).

(** "A successful answer whose games list is empty or absent fails with
    PrivateProfile." *)
Definition empty_or_absent_is_private : Prop :=
  forall (fetch : nat -> string -> reply) id useCache w t r data,
    reaches_network id useCache w ->
    fetch (length (fetched w)) (owned_games_url id) = Resolves t r ->
    ok r = true ->
    json r = inr data ->
    games_or_empty data = [] ->
    fst (getOwnedGames fetch id useCache w)
    = Throws (Error STEAM_ERRORS.PRIVATE_PROFILE).

(** "A transport-level exception fails with NetworkError." *)
Definition transport_exception_is_network_error : Prop :=
  forall (fetch : nat -> string -> reply) id useCache w t e,
    reaches_network id useCache w ->
    fetch (length (fetched w)) (owned_games_url id) = Rejects t e ->
    fst (getOwnedGames fetch id useCache w)
    = Throws (Error STEAM_ERRORS.NETWORK_ERROR).

(** "Two calls with caching enabled and no clear in between issue exactly
    one transport call", [dt] being the time between the two calls. *)
Definition cached_twice_is_one_call : Prop :=
  forall (fetch : nat -> string -> reply) id w dt,
    validateSteamId id = true ->
    let w1 := snd (getOwnedGames fetch id true w) in
    let w2 := snd (getOwnedGames fetch id true (elapse dt w1)) in
    length (fetched w2) = S (length (fetched w)).

(** "A failed call leaves every existing cache entry unchanged." *)
Definition failure_leaves_cache_unchanged : Prop :=
  forall (fetch : nat -> string -> reply) id useCache w e w',
    getOwnedGames fetch id useCache w = (Throws e, w') ->
    gameCache w' = gameCache w.

(** ** Worlds and transports of the examples *)

Definition alice : value := VStr "76561198001234567".
Definition bob : value := VStr "76561198001234568".

(** A transport that answers every call with the same reply. *)
Definition always (r : reply) : nat -> string -> reply := fun _ _ => r.

(** A successful answer carrying [data]. *)
Definition ok_with (data : body) : reply :=
  Resolves 5 {| ok := true; status := 200; json := inr data |}.

(** An answer with a failing status and no body. *)
Definition failing_with (code : Z) : reply :=
  Resolves 5 {| ok := false; status := code;
                json := inl {| name := "SyntaxError";
                               message := "Unexpected end of JSON input" |} |}.

(** [{ response: { game_count: n, games: gs } }]. *)
Definition library_body (gs : list game) : body :=
  {| response := Some {| game_count := Some (Z.of_nat (length gs));
                         games := Some gs |} |}.

(** [{ response: { games: [] } }]. *)
Definition empty_games_body : body :=
  {| response := Some {| game_count := None; games := Some [] |} |}.

(** [{ response: {} }]. *)
Definition no_games_body : body :=
  {| response := Some {| game_count := None; games := None |} |}.

(** A world whose cache holds, for [alice], a snapshot stored at time 0, read
    at a time when it is too old. *)
Definition stale_world : world :=
  with_gameCache
    (GameCache.set 0 alice
       {| Snapshot.steamId := alice; Snapshot.gameCount := 0;
          Snapshot.games := []; Snapshot.fetchedAt := 0 |}
       "games" GameCache.new)
    (initial (STEAM_CONFIG.CACHE_DURATION + 1)).

(** ** The overlap, in the words of the specification *)

(** The application ids of a library, in its order. *)
Definition appids (lib : library) : list Z := Game.appid <$> Library.games lib.

(** The application id [a] occurs in the library. *)
Definition occurs_in (a : Z) (lib : library) : Prop := a ∈ appids lib.

(** The application id [a] occurs in every library. *)
Definition survives_id (libraries : list library) (a : Z) : Prop :=
  Forall (occurs_in a) libraries.

(** A game survives when every library holds a game with its application id. *)
Definition survives (libraries : list library) (g : game) : Prop :=
  survives_id libraries (Game.appid g).

#[global] Instance survives_dec libraries g : Decision (survives libraries g).
Proof. unfold survives, survives_id, occurs_in. apply _. Defined.

(** The record put out for a surviving game, for [n] requested identifiers. *)
Definition to_overlap (n : Z) (g : game) : overlap :=
  {| Overlap.appId := Game.appid g;
     Overlap.name := Game.name g;
     Overlap.imgIconUrl := Game.img_icon_url g;
     Overlap.ownedBy := n |}.

(** One record per surviving game of the first library, in the order of that
    library. *)
Definition intersection (n : Z) (libraries : list library) : list overlap :=
  match libraries with
  | [] => []
  | first :: _ => to_overlap n <$> filter (survives libraries) (Library.games first)
  end.

Section FetchedLibraries.
Variable fetch : nat -> string -> reply.

(** The library fetched for one identifier: the games of the snapshot, or
    the empty list and the message when the fetch fails. *)
Definition library_of (steamId : value) (w : world) : library * world :=
  match getOwnedGames fetch steamId true w with
  | (Returns s, w') =>
      ({| Library.steamId := steamId; Library.games := Snapshot.games s;
          Library.error := None |}, w')
  | (Throws e, w') =>
      ({| Library.steamId := steamId; Library.games := [];
          Library.error := Some (message e) |},
       snd (console_warn (ToString steamId) (message e) w'))
  end.

(** The libraries fetched for the identifiers, one after the other. *)
Fixpoint libraries_of (steamIds : list value) (w : world)
  : list library * world :=
  match steamIds with
  | [] => ([], w)
  | steamId :: rest =>
      let here := library_of steamId w in
      let others := libraries_of rest (snd here) in
      (fst here :: fst others, snd others)
  end.
End FetchedLibraries.

(** The transport of the overlap example: the first call is answered with
    library A, every later call with library B. *)
Definition library_A : list game :=
  [ Game.mk 730 "Counter-Strike 2" None; Game.mk 570 "Dota 2" None;
    Game.mk 440 "Team Fortress 2" None ].

Definition library_B : list game :=
  [ Game.mk 730 "Counter-Strike 2" None; Game.mk 570 "Dota 2" None;
    Game.mk 1086940 "Baldur's Gate 3" None ].

Definition A_then_B : nat -> string -> reply :=
  fun n _ =>
    match n with
    | O => ok_with (library_body library_A)
    | S _ => ok_with (library_body library_B)
    end.

(** A first library that lists the game 730 twice. *)
Definition library_twice : list game :=
  [ Game.mk 730 "Counter-Strike 2" None; Game.mk 570 "Dota 2" None;
    Game.mk 730 "Counter-Strike 2" (Some "icon") ].

Definition twice_then_B : nat -> string -> reply :=
  fun n _ =>
    match n with
    | O => ok_with (library_body library_twice)
    | S _ => ok_with (library_body library_B)
    end.

(** The first call is answered with library A, every later call with 403. *)
Definition A_then_forbidden : nat -> string -> reply :=
  fun n _ =>
    match n with
    | O => ok_with (library_body library_A)
    | S _ => failing_with 403
    end.

(** ** The cache as a whole *)

(** The entries of the cache that are not older than the duration at [now]. *)
Definition fresh_entries {payload : Type} (now : Z) (c : GameCache.t payload)
  : gmap string (GameCache.entry payload) :=
  filter (fun kv => now - GameCache.timestamp kv.2 <= GameCache.cacheDuration c)
         (GameCache.cache c).

(** The entries of the cache that are older than the duration at [now]. *)
Definition stale_entries {payload : Type} (now : Z) (c : GameCache.t payload)
  : gmap string (GameCache.entry payload) :=
  filter (fun kv => now - GameCache.timestamp kv.2 > GameCache.cacheDuration c)
         (GameCache.cache c).

(** ** The service as a whole *)

(** The object [getStats()] of the service returns. *)
Module ServiceStats.
Record t : Type := mk {
  requestCount : Z;
  cacheStats : GameCache.Stats.t;
  lastRequestTime : Z
}.
End ServiceStats.

(** [getStats()] of the service. *)
Definition getStats : M ServiceStats.t :=
  fun w =>
    (Returns {| ServiceStats.requestCount := requestCount w;
                ServiceStats.cacheStats := GameCache.getStats (clock w) (gameCache w);
                ServiceStats.lastRequestTime := lastRequestTime w |},
     w).

(** [gameCache.cleanup()] and [gameCache.clear()] on the singleton. *)
Definition gameCache_cleanup : M unit :=
  fun w =>
    (Returns tt, with_gameCache (GameCache.cleanup (clock w) (gameCache w)) w).

Definition gameCache_clear : M unit :=
  fun w => (Returns tt, with_gameCache (GameCache.clear (gameCache w)) w).

(** [n] calls of [enforceRateLimit] one right after the other. *)
Fixpoint acquisitions (n : nat) : M unit :=
  match n with
  | O => ret tt
  | S n' => enforceRateLimit ;;; acquisitions n'
  end.

Section Reachable.
Variable fetch : nat -> string -> reply.

(** One thing that happens to the service: a caller calls one of the two
    operations, the timer of the cache module runs [cleanup], somebody calls
    [clear], or time passes. *)
Inductive step : world -> world -> Prop :=
| step_getOwnedGames id useCache w :
    step w (snd (getOwnedGames fetch id useCache w))
| step_findOverlappingGames steamIds w :
    step w (snd (findOverlappingGames fetch steamIds w))
| step_cleanup w : step w (snd (gameCache_cleanup w))
| step_clear w : step w (snd (gameCache_clear w))
| step_elapse dt w : step w (elapse dt w).

(** The worlds the service can be in, from its creation at [now]. *)
Definition reachable (w : world) : Prop :=
  exists now, rtc step (initial now) w.
End Reachable.

(** What holds of the service in every world it can reach: the counter of
    requests counts the calls of the transport; every URL handed to the
    transport is the owned-games URL of an identifier that passed the
    validator; every entry of the cache sits under the "games" key of a
    validated identifier and holds a snapshot taken for that identifier at the
    time the entry is stamped with; and the duration is the configured one. *)
Record service_invariant (w : world) : Prop := {
  inv_requestCount : requestCount w = Z.of_nat (length (fetched w));
  inv_fetched :
    Forall (fun url => exists id, validateSteamId id = true /\
                                   url = owned_games_url id) (fetched w);
  inv_entries :
    forall k e,
      GameCache.cache (gameCache w) !! k = Some e ->
      validateSteamId (Snapshot.steamId (GameCache.data e)) = true /\
      k = GameCache.generateKey (Snapshot.steamId (GameCache.data e)) "games" /\
      Snapshot.fetchedAt (GameCache.data e) = GameCache.timestamp e;
  inv_duration :
    GameCache.cacheDuration (gameCache w) = STEAM_CONFIG.CACHE_DURATION
}.

(** The lines [findOverlappingGames] writes with [console.warn] for the
    libraries it collected: one for each library that carries an error, in
    the order of the libraries. *)
Definition failure_lines (libraries : list library) : list (string * string) :=
  flat_map
    (fun lib =>
       match Library.error lib with
       | Some msg => [(ToString (Library.steamId lib), msg)]
       | None => []
       end)
    libraries.

(** ** More of the language: truthiness and string methods

    A [string] stands for a JavaScript string whose code units are below 256,
    one character for each code unit. *)

(** ToBoolean. *)
Definition truthy (v : value) : bool :=
  match v with
  | VUndefined | VNull => false
  | VBool b => b
  | VNum z => negb (z =? 0)
  | VStr s => negb (String.eqb s "")
  | VArr _ => true
  end.

(** [x || d]. *)
Definition or_else (x d : value) : value := if truthy x then x else d.

(** The white space and line terminators below 256: TAB, LF, VT, FF, CR,
    SPACE and NO-BREAK SPACE. *)
Definition is_whitespace (c : ascii) : bool :=
  let n := nat_of_ascii c in
  ((9 <=? n)%nat && (n <=? 13)%nat) || (n =? 32)%nat || (n =? 160)%nat.

(** [String.prototype.trimStart], [trimEnd] and [trim]. *)
Fixpoint trimStart (s : string) : string :=
  match s with
  | EmptyString => EmptyString
  | String c s' => if is_whitespace c then trimStart s' else s
  end.

Fixpoint trimEnd (s : string) : string :=
  match s with
  | EmptyString => EmptyString
  | String c s' =>
      match trimEnd s' with
      | EmptyString => if is_whitespace c then EmptyString else String c EmptyString
      | rest => String c rest
      end
  end.

Definition trim (s : string) : string := trimEnd (trimStart s).

(** [s.split('\n')]: the pieces between the line feeds; never empty. *)
Fixpoint split_lines (s : string) : list string :=
  match s with
  | EmptyString => [EmptyString]
  | String c s' =>
      if Ascii.eqb c "010"%char then EmptyString :: split_lines s'
      else match split_lines s' with
           | piece :: pieces => String c piece :: pieces
           | [] => [String c EmptyString]
           end
  end.

(** [String.prototype.toLowerCase] below 256: the letters A to Z and the
    capital letters from U+00C0 to U+00DE, the sign U+00D7 excepted, move up
    by 32. *)
Definition lower_char (c : ascii) : ascii :=
  let n := nat_of_ascii c in
  if ((65 <=? n)%nat && (n <=? 90)%nat) ||
     ((192 <=? n)%nat && (n <=? 222)%nat && negb (n =? 215)%nat)
  then ascii_of_nat (n + 32)
  else c.

Fixpoint toLowerCase (s : string) : string :=
  match s with
  | EmptyString => EmptyString
  | String c s' => String (lower_char c) (toLowerCase s')
  end.

(** [Array.prototype.join] on strings. *)
Fixpoint join (sep : string) (l : list string) : string :=
  match l with
  | [] => ""
  | [x] => x
  | x :: rest => x +:+ sep +:+ join sep rest
  end.

(** [l.slice(0, limit)]: a negative [limit] counts from the end. *)
Definition slice_to {A} (limit : Z) (l : list A) : list A :=
  if limit <? 0
  then take (Z.to_nat (Z.max (Z.of_nat (length l) + limit) 0)) l
  else take (Z.to_nat limit) l.

(** [v.length > bound] and [v.length < bound]: strings and arrays have a
    length; on the other values [length] is undefined and both comparisons
    are false. *)
Definition length_gt (v : value) (bound : nat) : bool :=
  match v with
  | VStr s => (bound <? String.length s)%nat
  | VArr l => (bound <? length l)%nat
  | _ => false
  end.

Definition length_lt (v : value) (bound : nat) : bool :=
  match v with
  | VStr s => (String.length s <? bound)%nat
  | VArr l => (length l <? bound)%nat
  | _ => false
  end.

(** ** src/utils/manualEntry.js *)

(** The object [validateGameEntry] returns. *)
Module Validation.
Record t : Type := mk { isValid : bool; errors : list string }.
End Validation.

(** [validateGameEntry(game)], [name] being [game.name], the one property of
    the game the function reads.  [trim] is only reached on a string. *)
Definition validateGameEntry (name : value) : Validation.t :=
  let errors : list string := [] in
  let errors :=
    if negb (truthy name) ||
       match name with
       | VStr s => (String.length (trim s) =? 0)%nat
       | _ => true
       end
    then errors ++ ["Game name is required"]
    else errors in
  let errors :=
    if truthy name && length_gt name 100
    then errors ++ ["Game name must be less than 100 characters"]
    else errors in
  {| Validation.isValid := (length errors =? 0)%nat; Validation.errors := errors |}.

(** The [options] of a manual entry; an absent property is [VUndefined]. *)
Module Options.
Record t : Type := mk {
  playtime : value;
  iconUrl : value;
  logoUrl : value;
  userId : value
}.
Definition none : t :=
  {| playtime := VUndefined; iconUrl := VUndefined; logoUrl := VUndefined;
     userId := VUndefined |}.
End Options.

(** The object [createManualGameEntry] returns.  [addedAt] is the instant that
    [new Date().toISOString()] prints. *)
Module ManualGame.
Record t : Type := mk {
  appId : string;
  name : string;
  source : string;
  playtimeForever : value;
  imgIconUrl : value;
  imgLogoUrl : value;
  addedAt : Z;
  addedBy : value
}.
End ManualGame.

(** [createManualGameEntry(name, options)]; [now] is the reading of the clock
    and [rand] the characters drawn with [Math.random]. *)
Definition createManualGameEntry (now : Z) (rand : string) (name : value)
    (options : Options.t) : error + ManualGame.t :=
  let validation := validateGameEntry name in
  if negb (Validation.isValid validation)
  then inl (Error ("Invalid game entry: " +:+ join ", " (Validation.errors validation)))
  else
    match name with
    | VStr s =>
        inr {| ManualGame.appId := "manual_" +:+ ToString (VNum now) +:+ "_" +:+ rand;
               ManualGame.name := trim s;
               ManualGame.source := "manual";
               ManualGame.playtimeForever := or_else (Options.playtime options) (VNum 0);
               ManualGame.imgIconUrl := or_else (Options.iconUrl options) VNull;
               ManualGame.imgLogoUrl := or_else (Options.logoUrl options) VNull;
               ManualGame.addedAt := now;
               ManualGame.addedBy := or_else (Options.userId options) (VStr "anonymous") |}
    | _ => inl (TypeError "name.trim is not a function")
    end.

(** What [parseGameListFromText] returns: the empty array, or the summary. *)
Inductive parsed : Type :=
| EmptyArray
| Summary (games : list ManualGame.t) (errors : list string)
          (totalProcessed successCount errorCount : Z).

Section ParseGameList.
(** The clock and the random characters at the [i]-th line processed. *)
Variable now_at : nat -> Z.
Variable rand_at : nat -> string.

(** The loop of [parseGameListFromText], from index [i] on. *)
Fixpoint parse_lines (options : Options.t) (i : nat) (lines : list string)
    (games : list ManualGame.t) (errors : list string)
  : list ManualGame.t * list string :=
  match lines with
  | [] => (games, errors)
  | line :: rest =>
      match createManualGameEntry (now_at i) (rand_at i) (VStr line) options with
      | inr g => parse_lines options (S i) rest (games ++ [g]) errors
      | inl e =>
          parse_lines options (S i) rest games
            (errors ++ ["Line " +:+ ToString (VNum (Z.of_nat i + 1)) +:+ ": "
                          +:+ message e])
      end
  end.

(** [parseGameListFromText(gameListText, options)]. *)
Definition parseGameListFromText (gameListText : value) (options : Options.t)
  : parsed :=
  match gameListText with
  | VStr text =>
      if negb (truthy gameListText) then EmptyArray
      else
        let lines :=
          List.filter (fun line => (0 <? String.length line)%nat)
                      (map trim (split_lines text)) in
        let (games, errors) := parse_lines options 0 lines [] [] in
        Summary games errors (Z.of_nat (length lines))
                (Z.of_nat (length games)) (Z.of_nat (length errors))
  | _ => EmptyArray
  end.
End ParseGameList.

(** An element of the array [findCommonGames] returns: the properties of the
    Steam game, spread, with the manual entry and the kind of match. *)
Module CommonGame.
Record t : Type := mk {
  steam : game;
  manualEntry : ManualGame.t;
  matchType : string
}.
End CommonGame.

(** [findCommonGames(manualGames, steamGames)]. *)
Definition findCommonGames (manualGames : list ManualGame.t)
    (steamGames : list game) : list CommonGame.t :=
  fold_left
    (fun commonGames manualGame =>
       let wanted := toLowerCase (ManualGame.name manualGame) in
       let steamMatch :=
         match List.find (fun steamGame =>
                            String.eqb (toLowerCase (Game.name steamGame)) wanted)
                         steamGames with
         | Some exact => Some exact
         | None =>
             List.find (fun steamGame =>
                          includes (toLowerCase (Game.name steamGame)) wanted ||
                          includes wanted (toLowerCase (Game.name steamGame)))
                       steamGames
         end in
       match steamMatch with
       | Some steamGame =>
           commonGames ++
           [ {| CommonGame.steam := steamGame;
                CommonGame.manualEntry := manualGame;
                CommonGame.matchType :=
                  if String.eqb (toLowerCase (Game.name steamGame)) wanted
                  then "exact" else "fuzzy" |} ]
       | None => commonGames
       end)
    manualGames [].

(** [POPULAR_GAMES_SUGGESTIONS]. *)
Definition POPULAR_GAMES_SUGGESTIONS : list string :=
  [ "Counter-Strike 2"; "Dota 2"; "PUBG: BATTLEGROUNDS"; "Grand Theft Auto V";
    "Apex Legends"; "Team Fortress 2"; "Rust"; "Dead by Daylight";
    "Garry's Mod"; "Among Us"; "Fall Guys"; "Rocket League"; "Valheim";
    "Minecraft"; "Terraria"; "Stardew Valley"; "The Witcher 3: Wild Hunt";
    "Cyberpunk 2077"; "Red Dead Redemption 2"; "Elden Ring" ].

(** [getGameSuggestions(partialName, limit)], the caller's [limit] or the
    default 5 being passed.  [toLowerCase] exists on strings only. *)
Definition getGameSuggestions (partialName : value) (limit : Z)
  : error + list string :=
  if negb (truthy partialName) || length_lt partialName 2
  then inr (slice_to limit POPULAR_GAMES_SUGGESTIONS)
  else
    match partialName with
    | VStr s =>
        let lowerPartial := toLowerCase s in
        let matches :=
          List.filter (fun g => includes (toLowerCase g) lowerPartial)
                      POPULAR_GAMES_SUGGESTIONS in
        inr (slice_to limit matches)
    | _ => inl (TypeError "partialName.toLowerCase is not a function")
    end.

(** The string is empty or begins with something that is not white space. *)
Definition starts_clean (s : string) : Prop :=
  match s with
  | EmptyString => True
  | String c _ => is_whitespace c = false
  end.


(** The lines [parseGameListFromText] processes: the pieces between the line
    feeds, trimmed, the empty ones left out. *)
Definition entry_lines (text : string) : list string :=
  List.filter (fun line => (0 <? String.length line)%nat)
              (map trim (split_lines text)).

(** The lines numbered from [first] on. *)
Definition numbered (first : nat) (lines : list string) : list (nat * string) :=
  zip (seq first (length lines)) lines.

(** The message [parseGameListFromText] records for line number [n] when the
    line is too long. *)
Definition too_long_message (n : nat) : string :=
  "Line " +:+ ToString (VNum (Z.of_nat n)) +:+
  ": Invalid game entry: Game name must be less than 100 characters".

(** A Steam game matches a manual entry exactly: the names are equal, case
    apart. *)
Definition exact_match (manualGame : ManualGame.t) (steamGame : game) : Prop :=
  toLowerCase (Game.name steamGame) = toLowerCase (ManualGame.name manualGame).

(** A Steam game matches a manual entry: one of the two names, case apart,
    contains the other. *)
Definition fuzzy_match (manualGame : ManualGame.t) (steamGame : game) : bool :=
  includes (toLowerCase (Game.name steamGame))
           (toLowerCase (ManualGame.name manualGame)) ||
  includes (toLowerCase (ManualGame.name manualGame))
           (toLowerCase (Game.name steamGame)).

(** ** [processGamesList] *)

(** A raw game record with all the properties [processGamesList] reads; an
    absent property is [VUndefined]. *)
Module RawGame.
Record t : Type := mk {
  appid : value;
  name : value;
  playtime_forever : value;
  playtime_2weeks : value;
  img_icon_url : value;
  img_logo_url : value;
  has_community_visible_stats : value
}.
End RawGame.

(** An element of the array [processGamesList] returns. *)
Module ProcessedGame.
Record t : Type := mk {
  appId : value;
  name : value;
  playtimeForever : value;
  playtime2Weeks : value;
  imgIconUrl : value;
  imgLogoUrl : value;
  hasPublicStatsSupport : value
}.
End ProcessedGame.

(** [processGamesList(games)]. *)
Definition processGamesList (games : list RawGame.t) : list ProcessedGame.t :=
  map (fun game =>
         {| ProcessedGame.appId := RawGame.appid game;
            ProcessedGame.name := RawGame.name game;
            ProcessedGame.playtimeForever :=
              or_else (RawGame.playtime_forever game) (VNum 0);
            ProcessedGame.playtime2Weeks :=
              or_else (RawGame.playtime_2weeks game) (VNum 0);
            ProcessedGame.imgIconUrl := RawGame.img_icon_url game;
            ProcessedGame.imgLogoUrl := RawGame.img_logo_url game;
            ProcessedGame.hasPublicStatsSupport :=
              or_else (RawGame.has_community_visible_stats game) (VBool false) |})
      games.

(** The value is defined: neither [undefined] nor [null]. *)
Definition defined (v : value) : Prop := v <> VUndefined /\ v <> VNull.

(** * Properties *)

Arguments owned_games_url : simpl never.
Arguments GameCache.generateKey : simpl never.
Arguments includes : simpl never.
Arguments validateSteamId : simpl never.

(** ** The coercions, on examples *)

Example includes_fetch : includes "Failed to fetch" "fetch" = true.
Proof. reflexivity. Qed.

Example includes_no_fetch : includes "Network request failed" "fetch" = false.
Proof. reflexivity. Qed.

Example ToString_array :
  ToString (VArr [VNum 1; VNull; VArr [VStr "a"; VBool true]; VUndefined])
  = "1,,a,true,".
Proof. reflexivity. Qed.

Example generateKey_kinds :
  @GameCache.generateKey (VStr "76561198001234567") "games"
  = "steam_games_76561198001234567" /\
  @GameCache.generateKey (VStr "76561198001234567") "profile"
  = "steam_profile_76561198001234567".
Proof. split; reflexivity. Qed.

(** ** The identifier validator *)

Lemma is_digit_spec (c : ascii) :
  is_digit c = true <-> In c decimal_digits.
Proof.
  destruct c as [[] [] [] [] [] [] [] []]; vm_compute; split; intros H;
    first [ reflexivity | discriminate H | tauto
          | repeat (destruct H as [H | H]; [ discriminate H | ]); contradiction ].
Qed.

Lemma match_digits_spec (n : nat) (s : string) :
  match_digits n s = true <->
  String.length s = n /\ Forall (fun c => In c decimal_digits) (list_ascii_of_string s).
Proof.
  revert s; induction n as [| n IH]; intros [| c s]; simpl.
  - split; [ intros _; split; [ reflexivity | constructor ] | reflexivity ].
  - split; [ discriminate | intros [H _]; discriminate H ].
  - split; [ discriminate | intros [H _]; discriminate H ].
  - rewrite andb_true_iff, IH, is_digit_spec. split.
    + intros [Hc [Hl Hs]]. split; [ congruence | constructor; assumption ].
    + intros [Hl Hs]. inversion Hs; subst. repeat split; try assumption.
      congruence.
Qed.

Lemma validateSteamId_ToString (v : value) :
  validateSteamId v = validateSteamId (VStr (ToString v)).
Proof. reflexivity. Qed.

(** C2, as stated, fails: the Number 10000000000000000 is not a string and the
    validator accepts it, because [test] converts its argument to the string
    of 17 digits. *)
Lemma validateSteamId_accepts_number : ~ accepts_only_strings.
Proof.
  intros H. destruct (proj1 (H (VNum (10 ^ 16))) eq_refl) as [s [Hs _]].
  discriminate Hs.
Qed.

(** C2, amended: on a string the validator answers true exactly when the
    string is 17 decimal digits; null, undefined and the booleans are
    rejected; on every value the answer is the one for the string the value
    converts to, so that a value is accepted exactly when that string is 17
    decimal digits, as it is for the Number 10^16 and for an array holding one
    valid identifier. *)
Theorem validateSteamId_spec :
  (forall s : string,
      validateSteamId (VStr s) = true <->
      String.length s = 17%nat /\
      Forall (fun c => In c decimal_digits) (list_ascii_of_string s)) /\
  validateSteamId VNull = false /\
  validateSteamId VUndefined = false /\
  (forall b, validateSteamId (VBool b) = false) /\
  (forall v,
      validateSteamId v = true <->
      String.length (ToString v) = 17%nat /\
      Forall (fun c => In c decimal_digits) (list_ascii_of_string (ToString v))) /\
  validateSteamId (VNum (10 ^ 16)) = true /\
  validateSteamId (VArr [VStr "76561198001234567"]) = true.
Proof.
  split; [ intros s; apply match_digits_spec | ].
  split; [ reflexivity | ]. split; [ reflexivity | ].
  split; [ intros []; reflexivity | ].
  split; [ intros v; apply match_digits_spec | ].
  split; reflexivity.
Qed.

(** ** The cache *)

Section CacheFacts.
Context {payload : Type}.
Implicit Types (c : GameCache.t payload) (p : payload).

Lemma get_absent now id kind c :
  GameCache.cache c !! GameCache.generateKey id kind = None ->
  GameCache.get now id kind c = (None, c).
Proof. intros H. unfold GameCache.get. rewrite H. reflexivity. Qed.

Lemma get_fresh now id kind c e :
  GameCache.cache c !! GameCache.generateKey id kind = Some e ->
  now - GameCache.timestamp e <= GameCache.cacheDuration c ->
  GameCache.get now id kind c = (Some (GameCache.data e), c).
Proof.
  intros H Hage. unfold GameCache.get. rewrite H.
  rewrite Z.gtb_ltb. destruct (Z.ltb_spec (GameCache.cacheDuration c)
    (now - GameCache.timestamp e)); [ lia | reflexivity ].
Qed.

Lemma get_expired now id kind c e :
  GameCache.cache c !! GameCache.generateKey id kind = Some e ->
  now - GameCache.timestamp e > GameCache.cacheDuration c ->
  GameCache.get now id kind c =
  (None, {| GameCache.cache :=
              delete (GameCache.generateKey id kind) (GameCache.cache c);
            GameCache.cacheDuration := GameCache.cacheDuration c |}).
Proof.
  intros H Hage. unfold GameCache.get. rewrite H.
  rewrite Z.gtb_ltb. destruct (Z.ltb_spec (GameCache.cacheDuration c)
    (now - GameCache.timestamp e)); [ reflexivity | lia ].
Qed.

Lemma set_lookup now id kind p c :
  GameCache.cache (GameCache.set now id p kind c)
    !! GameCache.generateKey id kind
  = Some {| GameCache.data := p; GameCache.timestamp := now |}.
Proof. simpl. apply lookup_insert_eq. Qed.

(** C6: [set] at time [t0] puts the payload under the key of the identifier
    and the kind, stamped [t0]; as long as that entry is in the cache, a [get]
    at any [t] with [t - t0 <= D] returns the payload unchanged and leaves the
    cache as it is, and a [get] at a [t] with [t - t0 > D] returns null and
    deletes the entry, so that a later [get], whenever it comes, returns null
    as well; a [get] for a key that is not in the map returns null. *)
Theorem get_after_set c id kind p (t0 t : Z) :
  let D := GameCache.cacheDuration c in
  let key := GameCache.generateKey id kind in
  let stored := {| GameCache.data := p; GameCache.timestamp := t0 |} in
  GameCache.cache (GameCache.set t0 id p kind c) !! key = Some stored /\
  GameCache.cacheDuration (GameCache.set t0 id p kind c) = D /\
  (GameCache.cache c !! key = Some stored ->
   t - t0 <= D ->
   GameCache.get t id kind c = (Some p, c)) /\
  (GameCache.cache c !! key = Some stored ->
   t - t0 > D ->
   exists c1,
     GameCache.get t id kind c = (None, c1) /\
     GameCache.cache c1 !! key = None /\
     forall t', GameCache.get t' id kind c1 = (None, c1)) /\
  (GameCache.cache c !! key = None -> GameCache.get t id kind c = (None, c)).
Proof.
  intros D key stored.
  split; [ apply set_lookup | ]. split; [ reflexivity | ].
  split; [ | split ].
  - intros Hk Hage. apply (get_fresh t id kind c stored Hk Hage).
  - intros Hk Hage. eexists. split; [ | split ].
    + apply (get_expired t id kind c stored Hk Hage).
    + simpl. apply lookup_delete_eq.
    + intros t'. apply get_absent. simpl. apply lookup_delete_eq.
  - apply get_absent.
Qed.
End CacheFacts.

Lemma get_after_set_witness :
  let c0 := GameCache.set 1000 (VStr "76561198001234567") 7%nat "games"
              GameCache.new in
  GameCache.get 3601000 (VStr "76561198001234567") "games" c0 = (Some 7%nat, c0) /\
  (exists c1,
      GameCache.get 3601001 (VStr "76561198001234567") "games" c0 = (None, c1) /\
      GameCache.cache c1 !! "steam_games_76561198001234567" = None /\
      forall t', GameCache.get t' (VStr "76561198001234567") "games" c1 = (None, c1)) /\
  GameCache.get 5 (VStr "76561198001234567") "profile" c0 = (None, c0).
Proof.
  intros c0. split; [ | split ].
  - apply (get_after_set c0 (VStr "76561198001234567") "games" 7%nat 1000 3601000).
    + reflexivity.
    + vm_compute. discriminate.
  - apply (get_after_set c0 (VStr "76561198001234567") "games" 7%nat 1000 3601001).
    + reflexivity.
    + vm_compute. reflexivity.
  - apply (get_after_set c0 (VStr "76561198001234567") "profile" 7%nat 0 5).
    reflexivity.
Defined.

(** ** The rate limiter and the transport *)

Lemma enforceRateLimit_granted (w : world) :
  enforceRateLimit w = (Returns tt, granted w).
Proof.
  unfold enforceRateLimit, granted, bind, Date_now, gets, sleep, record_request,
    elapse, with_clock, ret.
  change (1000 / STEAM_CONFIG.REQUESTS_PER_SECOND) with 1000.
  destruct (Z.ltb_spec (clock w - lastRequestTime w) 1000); simpl;
    f_equal; f_equal; lia.
Qed.

Section Requests.
Variable fetch : nat -> string -> reply.

Lemma makeRequest_rejects url w t e :
  fetch (length (fetched w)) url = Rejects t e ->
  makeRequest fetch url w =
  (Throws (if looks_like_network_failure e
           then Error STEAM_ERRORS.NETWORK_ERROR else e),
   answered url t w).
Proof.
  intros Hf. unfold makeRequest, bind, try_catch.
  rewrite enforceRateLimit_granted. unfold await_fetch. simpl. rewrite Hf.
  unfold looks_like_network_failure, throw, answered. simpl.
  destruct (_ || _); reflexivity.
Qed.

Lemma makeRequest_status url w t r :
  fetch (length (fetched w)) url = Resolves t r ->
  ok r = false ->
  makeRequest fetch url w =
  (Throws (Error (if status r =? 429 then STEAM_ERRORS.RATE_LIMIT_EXCEEDED
                  else if status r =? 403 then STEAM_ERRORS.PRIVATE_PROFILE
                  else STEAM_ERRORS.API_UNAVAILABLE)),
   answered url t w).
Proof.
  intros Hf Hok. unfold makeRequest, bind, try_catch.
  rewrite enforceRateLimit_granted. unfold await_fetch. simpl. rewrite Hf, Hok.
  simpl. destruct (status r =? 429); [ reflexivity | ].
  destruct (status r =? 403); reflexivity.
Qed.

Lemma makeRequest_json_rejects url w t r e :
  fetch (length (fetched w)) url = Resolves t r ->
  ok r = true ->
  json r = inl e ->
  makeRequest fetch url w =
  (Throws (if looks_like_network_failure e
           then Error STEAM_ERRORS.NETWORK_ERROR else e),
   answered url t w).
Proof.
  intros Hf Hok Hj. unfold makeRequest, bind, try_catch.
  rewrite enforceRateLimit_granted. unfold await_fetch, await_json. simpl.
  rewrite Hf, Hok. simpl. rewrite Hj.
  unfold looks_like_network_failure, throw, answered. simpl.
  destruct (_ || _); reflexivity.
Qed.

Lemma makeRequest_data url w t r data :
  fetch (length (fetched w)) url = Resolves t r ->
  ok r = true ->
  json r = inr data ->
  makeRequest fetch url w = (Returns data, answered url t w).
Proof.
  intros Hf Hok Hj. unfold makeRequest, bind, try_catch.
  rewrite enforceRateLimit_granted. unfold await_fetch, await_json. simpl.
  rewrite Hf, Hok. simpl. rewrite Hj. reflexivity.
Qed.

(** Whatever the transport answers, [makeRequest] hands exactly one URL to
    it and leaves the cache alone. *)
Lemma makeRequest_world url w :
  exists t, snd (makeRequest fetch url w) = answered url t w.
Proof.
  destruct (fetch (length (fetched w)) url) as [t e | t r] eqn:Hf.
  - exists t. rewrite (makeRequest_rejects _ _ _ _ Hf). reflexivity.
  - exists t. destruct (ok r) eqn:Hok.
    + destruct (json r) as [e | data] eqn:Hj.
      * rewrite (makeRequest_json_rejects _ _ _ _ _ Hf Hok Hj). reflexivity.
      * rewrite (makeRequest_data _ _ _ _ _ Hf Hok Hj). reflexivity.
    + rewrite (makeRequest_status _ _ _ _ Hf Hok). reflexivity.
Qed.

(** ** [getOwnedGames], case by case *)

Lemma requestOwnedGames_throws id w e w' :
  makeRequest fetch (owned_games_url id) w = (Throws e, w') ->
  requestOwnedGames fetch id w = (Throws e, w').
Proof.
  intros H. unfold requestOwnedGames, try_catch, bind. rewrite H. reflexivity.
Qed.

Lemma requestOwnedGames_no_games id w data w' :
  makeRequest fetch (owned_games_url id) w = (Returns data, w') ->
  (response data = None \/
   exists r, response data = Some r /\ games r = None) ->
  requestOwnedGames fetch id w =
  (Throws (Error STEAM_ERRORS.PRIVATE_PROFILE), w').
Proof.
  intros H Hno. unfold requestOwnedGames, try_catch, bind. rewrite H.
  destruct Hno as [-> | [r [-> ->]]]; reflexivity.
Qed.

Lemma requestOwnedGames_games id w data w' r gs :
  makeRequest fetch (owned_games_url id) w = (Returns data, w') ->
  response data = Some r ->
  games r = Some gs ->
  let result := snapshot_of id r gs (clock w') in
  requestOwnedGames fetch id w =
  (Returns result,
   with_gameCache (GameCache.set (clock w') id result "games" (gameCache w')) w').
Proof.
  intros H Hr Hg. unfold requestOwnedGames, try_catch, bind. rewrite H, Hr, Hg.
  reflexivity.
Qed.

Lemma getOwnedGames_invalid id useCache w :
  validateSteamId id = false ->
  getOwnedGames fetch id useCache w =
  (Throws (Error STEAM_ERRORS.INVALID_STEAM_ID), w).
Proof. intros H. unfold getOwnedGames. rewrite H. reflexivity. Qed.

Lemma with_gameCache_same w : with_gameCache (gameCache w) w = w.
Proof. destruct w; reflexivity. Qed.

Lemma getOwnedGames_hit id w s :
  validateSteamId id = true ->
  fst (GameCache.get (clock w) id "games" (gameCache w)) = Some s ->
  getOwnedGames fetch id true w = (Returns s, w).
Proof.
  intros Hv Hget. unfold getOwnedGames, bind, gameCache_get. rewrite Hv. simpl.
  revert Hget. unfold GameCache.get.
  destruct (GameCache.cache (gameCache w) !! _) as [en |]; [ | discriminate ].
  destruct (_ >? _); [ discriminate | ]. simpl. intros [= ->].
  rewrite with_gameCache_same. reflexivity.
Qed.

Lemma getOwnedGames_miss id useCache w :
  reaches_network id useCache w ->
  getOwnedGames fetch id useCache w =
  requestOwnedGames fetch id (looked_up id useCache w).
Proof.
  intros [Hv Hmiss]. unfold getOwnedGames, looked_up. rewrite Hv. simpl.
  destruct useCache; [ | reflexivity ].
  destruct Hmiss as [Hf | Hget]; [ discriminate | ].
  unfold bind, gameCache_get.
  destruct (GameCache.get _ _ _ _) as [o c]. simpl in *. subst o. reflexivity.
Qed.

(** The lookup of a call that reaches the network changes neither the
    clock, nor the counters, nor what was handed to the transport. *)
Lemma looked_up_fetched id useCache w :
  fetched (looked_up id useCache w) = fetched w.
Proof. unfold looked_up. destruct useCache; reflexivity. Qed.

Lemma looked_up_clock id useCache w :
  clock (looked_up id useCache w) = clock w.
Proof. unfold looked_up. destruct useCache; reflexivity. Qed.
End Requests.

(** ** Private profiles *)

(** C1, as stated, fails: on the answer [{ response: { games: [] } }] the call
    succeeds, with an empty library, where the statement wants
    PrivateProfile. *)
Lemma empty_games_list_is_not_private : ~ empty_or_absent_is_private.
Proof.
  intros H.
  specialize (H (always (ok_with empty_games_body)) alice false (initial 0)
                5 _ empty_games_body
                (conj eq_refl (or_introl eq_refl)) eq_refl eq_refl eq_refl eq_refl).
  vm_compute in H. discriminate H.
Qed.

Section Outcomes.
Variable fetch : nat -> string -> reply.
Variables (id : value) (useCache : bool) (w : world).
Hypothesis Hreach : reaches_network id useCache w.

Let url := owned_games_url id.
Let n := length (fetched w).

Lemma getOwnedGames_absent_games t r data :
  fetch n url = Resolves t r ->
  ok r = true ->
  json r = inr data ->
  (response data = None \/ exists og, response data = Some og /\ games og = None) ->
  fst (getOwnedGames fetch id useCache w)
  = Throws (Error STEAM_ERRORS.PRIVATE_PROFILE).
Proof.
  intros Hf Hok Hj Hno. rewrite (getOwnedGames_miss _ _ _ _ Hreach).
  subst n. rewrite <- (looked_up_fetched id useCache w) in Hf.
  rewrite (requestOwnedGames_no_games _ _ _ _ _
             (makeRequest_data _ _ _ _ _ _ Hf Hok Hj) Hno).
  reflexivity.
Qed.

Lemma getOwnedGames_some_games t r data og gs :
  fetch n url = Resolves t r ->
  ok r = true ->
  json r = inr data ->
  response data = Some og ->
  games og = Some gs ->
  let w1 := answered url t (looked_up id useCache w) in
  let result := snapshot_of id og gs (clock w1) in
  getOwnedGames fetch id useCache w =
  (Returns result,
   with_gameCache (GameCache.set (clock w1) id result "games" (gameCache w1)) w1).
Proof.
  intros Hf Hok Hj Hr Hg. rewrite (getOwnedGames_miss _ _ _ _ Hreach).
  subst n. rewrite <- (looked_up_fetched id useCache w) in Hf.
  apply (requestOwnedGames_games _ _ _ _ _ _ _
           (makeRequest_data _ _ _ _ _ _ Hf Hok Hj) Hr Hg).
Qed.

Lemma getOwnedGames_status t r :
  fetch n url = Resolves t r ->
  ok r = false ->
  fst (getOwnedGames fetch id useCache w) =
  Throws (Error (if status r =? 429 then STEAM_ERRORS.RATE_LIMIT_EXCEEDED
                 else if status r =? 403 then STEAM_ERRORS.PRIVATE_PROFILE
                 else STEAM_ERRORS.API_UNAVAILABLE)).
Proof.
  intros Hf Hok. rewrite (getOwnedGames_miss _ _ _ _ Hreach).
  subst n. rewrite <- (looked_up_fetched id useCache w) in Hf.
  rewrite (requestOwnedGames_throws _ _ _ _ _ (makeRequest_status _ _ _ _ _ Hf Hok)).
  reflexivity.
Qed.

Lemma getOwnedGames_rejects t e :
  fetch n url = Rejects t e ->
  fst (getOwnedGames fetch id useCache w) =
  Throws (if looks_like_network_failure e
          then Error STEAM_ERRORS.NETWORK_ERROR else e).
Proof.
  intros Hf. rewrite (getOwnedGames_miss _ _ _ _ Hreach).
  subst n. rewrite <- (looked_up_fetched id useCache w) in Hf.
  rewrite (requestOwnedGames_throws _ _ _ _ _ (makeRequest_rejects _ _ _ _ _ Hf)).
  reflexivity.
Qed.
End Outcomes.

(** C1, amended: for a valid identifier with no usable cache entry and a
    successful answer, the call fails with PrivateProfile when the answer has
    no response object or no games property, the error an answer with status
    403 gives; when the games property is there, empty or not, the call
    returns the snapshot holding that list. *)
Theorem absent_games_is_private fetch id useCache w t r :
  reaches_network id useCache w ->
  fetch (length (fetched w)) (owned_games_url id) = Resolves t r ->
  (ok r = true ->
   forall data, json r = inr data ->
   response data = None \/ (exists og, response data = Some og /\ games og = None) ->
   fst (getOwnedGames fetch id useCache w)
   = Throws (Error STEAM_ERRORS.PRIVATE_PROFILE)) /\
  (ok r = false -> status r = 403 ->
   fst (getOwnedGames fetch id useCache w)
   = Throws (Error STEAM_ERRORS.PRIVATE_PROFILE)) /\
  (ok r = true ->
   forall data og gs,
     json r = inr data -> response data = Some og -> games og = Some gs ->
     exists now,
       fst (getOwnedGames fetch id useCache w) = Returns (snapshot_of id og gs now)).
Proof.
  intros Hreach Hf. split; [ | split ].
  - intros Hok data Hj Hno.
    exact (getOwnedGames_absent_games _ _ _ _ Hreach _ _ _ Hf Hok Hj Hno).
  - intros Hok Hst. rewrite (getOwnedGames_status _ _ _ _ Hreach _ _ Hf Hok).
    rewrite Hst. reflexivity.
  - intros Hok data og gs Hj Hr Hg. eexists.
    rewrite (getOwnedGames_some_games _ _ _ _ Hreach _ _ _ _ _ Hf Hok Hj Hr Hg).
    reflexivity.
Qed.

Lemma absent_games_is_private_witness :
  fst (getOwnedGames (always (ok_with no_games_body)) alice false (initial 0))
  = Throws (Error STEAM_ERRORS.PRIVATE_PROFILE) /\
  fst (getOwnedGames (always (failing_with 403)) alice false (initial 0))
  = Throws (Error STEAM_ERRORS.PRIVATE_PROFILE) /\
  exists now,
    fst (getOwnedGames (always (ok_with empty_games_body)) alice false (initial 0))
    = Returns (snapshot_of alice {| game_count := None; games := Some [] |} [] now).
Proof.
  split; [ | split ].
  - apply (absent_games_is_private (always (ok_with no_games_body)) alice false
             (initial 0) 5 _ (conj eq_refl (or_introl eq_refl)) eq_refl)
      with (data := no_games_body).
    + reflexivity.
    + reflexivity.
    + right. eexists. split; reflexivity.
  - apply (absent_games_is_private (always (failing_with 403)) alice false
             (initial 0) 5 _ (conj eq_refl (or_introl eq_refl)) eq_refl);
      reflexivity.
  - apply (absent_games_is_private (always (ok_with empty_games_body)) alice false
             (initial 0) 5 _ (conj eq_refl (or_introl eq_refl)) eq_refl)
      with (data := empty_games_body); reflexivity.
Defined.

(** ** Classification of the outcome of a request *)

(** C4, as stated, fails: an exception of the transport that is not named
    TypeError and whose message does not contain "fetch" is thrown again as it
    is, not as NetworkError. *)
Lemma other_exception_is_rethrown : ~ transport_exception_is_network_error.
Proof.
  intros H.
  specialize (H (always (Rejects 5 (Error "connection reset"))) alice false
                (initial 0) 5 _ (conj eq_refl (or_introl eq_refl)) eq_refl).
  vm_compute in H. discriminate H.
Qed.

(** C4, amended: for a valid identifier that reaches the network step, an
    exception of the transport named TypeError, or whose message contains
    "fetch", fails with NetworkError, and any other exception of the transport
    is thrown again unchanged; an answer that is not ok fails with
    RateLimitExceeded on status 429, with PrivateProfile on status 403 and
    with ApiUnavailable on every other status. *)
Theorem request_outcome_classified fetch id useCache w :
  reaches_network id useCache w ->
  let reply_is r := fetch (length (fetched w)) (owned_games_url id) = r in
  let outcome := fst (getOwnedGames fetch id useCache w) in
  (forall t e, reply_is (Rejects t e) ->
     name e = "TypeError" \/ includes (message e) "fetch" = true ->
     outcome = Throws (Error STEAM_ERRORS.NETWORK_ERROR)) /\
  (forall t e, reply_is (Rejects t e) ->
     name e <> "TypeError" -> includes (message e) "fetch" = false ->
     outcome = Throws e) /\
  (forall t r, reply_is (Resolves t r) -> ok r = false -> status r = 429 ->
     outcome = Throws (Error STEAM_ERRORS.RATE_LIMIT_EXCEEDED)) /\
  (forall t r, reply_is (Resolves t r) -> ok r = false -> status r = 403 ->
     outcome = Throws (Error STEAM_ERRORS.PRIVATE_PROFILE)) /\
  (forall t r, reply_is (Resolves t r) -> ok r = false ->
     status r <> 429 -> status r <> 403 ->
     outcome = Throws (Error STEAM_ERRORS.API_UNAVAILABLE)).
Proof.
  intros Hreach reply_is outcome. subst reply_is outcome. repeat split.
  - intros t e Hf He. rewrite (getOwnedGames_rejects _ _ _ _ Hreach _ _ Hf).
    unfold looks_like_network_failure.
    destruct He as [-> | ->]; [ reflexivity | ]. rewrite orb_true_r. reflexivity.
  - intros t e Hf Hn Hm. rewrite (getOwnedGames_rejects _ _ _ _ Hreach _ _ Hf).
    unfold looks_like_network_failure. rewrite Hm.
    destruct (String.eqb_spec (name e) "TypeError"); [ contradiction | reflexivity ].
  - intros t r Hf Hok Hst. rewrite (getOwnedGames_status _ _ _ _ Hreach _ _ Hf Hok).
    rewrite Hst. reflexivity.
  - intros t r Hf Hok Hst. rewrite (getOwnedGames_status _ _ _ _ Hreach _ _ Hf Hok).
    rewrite Hst. reflexivity.
  - intros t r Hf Hok H429 H403.
    rewrite (getOwnedGames_status _ _ _ _ Hreach _ _ Hf Hok).
    destruct (Z.eqb_spec (status r) 429); [ contradiction | ].
    destruct (Z.eqb_spec (status r) 403); [ contradiction | reflexivity ].
Qed.

Lemma request_outcome_classified_witness :
  fst (getOwnedGames (always (Rejects 5 (TypeError "Network request failed")))
         alice true (initial 0))
  = Throws (Error STEAM_ERRORS.NETWORK_ERROR) /\
  fst (getOwnedGames (always (Rejects 5 (Error "connection reset")))
         alice true (initial 0))
  = Throws (Error "connection reset") /\
  fst (getOwnedGames (always (failing_with 429)) alice true (initial 0))
  = Throws (Error STEAM_ERRORS.RATE_LIMIT_EXCEEDED) /\
  fst (getOwnedGames (always (failing_with 403)) alice true (initial 0))
  = Throws (Error STEAM_ERRORS.PRIVATE_PROFILE) /\
  fst (getOwnedGames (always (failing_with 500)) alice true (initial 0))
  = Throws (Error STEAM_ERRORS.API_UNAVAILABLE).
Proof.
  assert (Hreach : reaches_network alice true (initial 0))
    by (split; [ reflexivity | right; reflexivity ]).
  split; [ | split; [ | split; [ | split ] ] ].
  - apply (request_outcome_classified
             (always (Rejects 5 (TypeError "Network request failed")))
             alice true (initial 0) Hreach)
      with (t := 5) (e := TypeError "Network request failed");
      [ reflexivity | left; reflexivity ].
  - apply (request_outcome_classified
             (always (Rejects 5 (Error "connection reset")))
             alice true (initial 0) Hreach) with (t := 5);
      [ reflexivity | discriminate | reflexivity ].
  - apply (request_outcome_classified (always (failing_with 429)) alice true
             (initial 0) Hreach) with (t := 5) (r := {| ok := false; status := 429;
               json := inl {| name := "SyntaxError";
                              message := "Unexpected end of JSON input" |} |});
      reflexivity.
  - apply (request_outcome_classified (always (failing_with 403)) alice true
             (initial 0) Hreach) with (t := 5) (r := {| ok := false; status := 403;
               json := inl {| name := "SyntaxError";
                              message := "Unexpected end of JSON input" |} |});
      reflexivity.
  - apply (request_outcome_classified (always (failing_with 500)) alice true
             (initial 0) Hreach) with (t := 5) (r := {| ok := false; status := 500;
               json := inl {| name := "SyntaxError";
                              message := "Unexpected end of JSON input" |} |});
      [ reflexivity | reflexivity | discriminate | discriminate ].
Defined.

(** ** What a call does to the cache and to the transport *)

Section CacheLookups.
Context {payload : Type}.
Implicit Types (c : GameCache.t payload).

Lemma get_cacheDuration now id kind c :
  GameCache.cacheDuration (snd (GameCache.get now id kind c))
  = GameCache.cacheDuration c.
Proof.
  unfold GameCache.get. destruct (GameCache.cache c !! _); [ | reflexivity ].
  destruct (_ >? _); reflexivity.
Qed.

Lemma get_lookup_other now id kind c k :
  k <> GameCache.generateKey id kind ->
  GameCache.cache (snd (GameCache.get now id kind c)) !! k
  = GameCache.cache c !! k.
Proof.
  intros Hk. unfold GameCache.get.
  destruct (GameCache.cache c !! GameCache.generateKey id kind); [ | reflexivity ].
  destruct (_ >? _); [ | reflexivity ].
  simpl. apply lookup_delete_ne. congruence.
Qed.

Lemma get_lookup_key now id kind c :
  let key := GameCache.generateKey id kind in
  let c' := snd (GameCache.get now id kind c) in
  GameCache.cache c' !! key = GameCache.cache c !! key \/
  (GameCache.cache c' !! key = None /\
   exists en, GameCache.cache c !! key = Some en /\
              now - GameCache.timestamp en > GameCache.cacheDuration c).
Proof.
  intros key c'. subst c'. unfold GameCache.get. fold key.
  destruct (GameCache.cache c !! key) as [en |] eqn:Hk; [ | left; assumption ].
  rewrite Z.gtb_ltb.
  destruct (Z.ltb_spec (GameCache.cacheDuration c) (now - GameCache.timestamp en)).
  - right. simpl. split; [ apply lookup_delete_eq | ].
    exists en. split; [ reflexivity | lia ].
  - left. simpl. assumption.
Qed.

Lemma get_hit_inv now id kind c p :
  fst (GameCache.get now id kind c) = Some p ->
  exists en, GameCache.cache c !! GameCache.generateKey id kind = Some en /\
             GameCache.data en = p /\
             now - GameCache.timestamp en <= GameCache.cacheDuration c.
Proof.
  unfold GameCache.get.
  destruct (GameCache.cache c !! _) as [en |]; [ | discriminate ].
  rewrite Z.gtb_ltb.
  destruct (Z.ltb_spec (GameCache.cacheDuration c) (now - GameCache.timestamp en));
    [ discriminate | ].
  simpl. intros [= <-]. exists en.
  split; [ reflexivity | split; [ reflexivity | lia ] ].
Qed.
End CacheLookups.

Section Calls.
Variable fetch : nat -> string -> reply.

(** A request either throws, the cache being as before, or returns the
    snapshot it has just stored; either way one URL went to the transport. *)
Lemma requestOwnedGames_cases id w :
  exists t,
    let w1 := answered (owned_games_url id) t w in
    (exists e, requestOwnedGames fetch id w = (Throws e, w1)) \/
    (exists og gs,
        let s := snapshot_of id og gs (clock w1) in
        requestOwnedGames fetch id w =
        (Returns s,
         with_gameCache (GameCache.set (clock w1) id s "games" (gameCache w1)) w1)).
Proof.
  destruct (fetch (length (fetched w)) (owned_games_url id)) as [t e | t r] eqn:Hf;
    exists t; simpl.
  - left. eexists.
    apply requestOwnedGames_throws, (makeRequest_rejects _ _ _ _ _ Hf).
  - destruct (ok r) eqn:Hok.
    + destruct (json r) as [e | data] eqn:Hj.
      * left. eexists.
        apply requestOwnedGames_throws, (makeRequest_json_rejects _ _ _ _ _ _ Hf Hok Hj).
      * pose proof (makeRequest_data _ _ _ _ _ _ Hf Hok Hj) as Hm.
        destruct (response data) as [og |] eqn:Hr.
        -- destruct (games og) as [gs |] eqn:Hg.
           ++ right. exists og, gs.
              apply (requestOwnedGames_games _ _ _ _ _ _ _ Hm Hr Hg).
           ++ left. eexists. apply (requestOwnedGames_no_games _ _ _ _ _ Hm).
              right. exists og. split; assumption.
        -- left. eexists. apply (requestOwnedGames_no_games _ _ _ _ _ Hm).
           left. assumption.
    + left. eexists.
      apply requestOwnedGames_throws, (makeRequest_status _ _ _ _ _ Hf Hok).
Qed.

Lemma requestOwnedGames_fetched id w :
  fetched (snd (requestOwnedGames fetch id w))
  = fetched w ++ [owned_games_url id].
Proof.
  destruct (requestOwnedGames_cases id w) as [t [[e H] | [og [gs H]]]];
    simpl in H; rewrite H; reflexivity.
Qed.

Lemma requestOwnedGames_throws_cache id w e w' :
  requestOwnedGames fetch id w = (Throws e, w') ->
  gameCache w' = gameCache w.
Proof.
  destruct (requestOwnedGames_cases id w) as [t [[e' H] | [og [gs H]]]];
    simpl in H; rewrite H; intros [= <- <-]; reflexivity.
Qed.

Lemma miss_reaches_network id w :
  validateSteamId id = true ->
  fst (GameCache.get (clock w) id "games" (gameCache w)) = None ->
  reaches_network id true w.
Proof. intros Hv Hm. split; [ assumption | right; assumption ]. Qed.

(** A valid identifier either hits the cache or reaches the network. *)
Lemma hit_or_miss id useCache w :
  validateSteamId id = true ->
  reaches_network id useCache w \/
  (useCache = true /\
   exists s, fst (GameCache.get (clock w) id "games" (gameCache w)) = Some s).
Proof.
  intros Hv. destruct useCache.
  - destruct (fst (GameCache.get (clock w) id "games" (gameCache w))) as [s |] eqn:Hg.
    + right. split; [ reflexivity | exists s; reflexivity ].
    + left. split; [ assumption | right; assumption ].
  - left. split; [ assumption | left; reflexivity ].
Qed.
End Calls.

(** ** Two calls in a row *)

(** C7, as stated, fails: with caching enabled and nothing cleared, a second
    call that comes later than the cache duration after the first finds the
    entry too old and goes to the transport again: two transport calls. *)
Lemma cached_twice_can_be_two_calls : ~ cached_twice_is_one_call.
Proof.
  intros H.
  specialize (H (always (ok_with (library_body []))) alice (initial 0)
                (STEAM_CONFIG.CACHE_DURATION + 1) eq_refl).
  vm_compute in H. discriminate H.
Qed.

Section Twice.
Variable fetch : nat -> string -> reply.
Variables (id : value) (w : world).
Hypothesis Hvalid : validateSteamId id = true.

Let url := owned_games_url id.

Lemma getOwnedGames_uncached_fetched w0 :
  fetched (snd (getOwnedGames fetch id false w0)) = fetched w0 ++ [url].
Proof.
  rewrite (getOwnedGames_miss fetch id false w0
             (conj Hvalid (or_introl eq_refl))).
  apply requestOwnedGames_fetched.
Qed.

Lemma getOwnedGames_stores s w1 :
  fst (GameCache.get (clock w) id "games" (gameCache w)) = None ->
  getOwnedGames fetch id true w = (Returns s, w1) ->
  fetched w1 = fetched w ++ [url] /\
  GameCache.cacheDuration (gameCache w1) = GameCache.cacheDuration (gameCache w) /\
  GameCache.cache (gameCache w1) !! GameCache.generateKey id "games"
  = Some {| GameCache.data := s; GameCache.timestamp := clock w1 |}.
Proof.
  intros Hmiss Hcall.
  rewrite (getOwnedGames_miss fetch id true w
             (miss_reaches_network id w Hvalid Hmiss)) in Hcall.
  destruct (requestOwnedGames_cases fetch id (looked_up id true w))
    as [t [[e H] | [og [gs H]]]]; cbv zeta in H; rewrite H in Hcall.
  - discriminate Hcall.
  - injection Hcall as <- <-. split; [ reflexivity | split ].
    + simpl. apply get_cacheDuration.
    + simpl. apply lookup_insert_eq.
Qed.
End Twice.

(** C7, amended: for a valid identifier, two calls with caching disabled hand
    the URL to the transport twice, whatever the cache holds and whatever time
    passes; a call with caching enabled that finds a usable entry returns it
    and changes nothing, neither the transport log nor the counters of the
    rate limiter; and when a first call with caching enabled finds no usable
    entry and succeeds, and the second call comes no later than the cache
    duration after it, the two calls issue exactly one transport call, the
    second one returning the same snapshot and changing nothing. *)
Theorem getOwnedGames_twice fetch id w dt :
  validateSteamId id = true ->
  let url := owned_games_url id in
  (let w1 := snd (getOwnedGames fetch id false w) in
   let w2 := snd (getOwnedGames fetch id false (elapse dt w1)) in
   fetched w2 = fetched w ++ [url; url]) /\
  (forall s,
      fst (GameCache.get (clock w) id "games" (gameCache w)) = Some s ->
      getOwnedGames fetch id true w = (Returns s, w)) /\
  (forall s w1,
      fst (GameCache.get (clock w) id "games" (gameCache w)) = None ->
      getOwnedGames fetch id true w = (Returns s, w1) ->
      dt <= GameCache.cacheDuration (gameCache w) ->
      fetched w1 = fetched w ++ [url] /\
      getOwnedGames fetch id true (elapse dt w1) = (Returns s, elapse dt w1)).
Proof.
  intros Hv url. split; [ | split ].
  - simpl. rewrite !(getOwnedGames_uncached_fetched fetch id Hv). simpl.
    rewrite (getOwnedGames_uncached_fetched fetch id Hv).
    rewrite <- app_assoc. reflexivity.
  - intros s Hhit. apply getOwnedGames_hit; assumption.
  - intros s w1 Hmiss Hcall Hdt.
    destruct (getOwnedGames_stores fetch id w Hv s w1 Hmiss Hcall) as [Hf [HD Hk]].
    split; [ exact Hf | ].
    apply getOwnedGames_hit; [ assumption | ].
    simpl. rewrite (get_fresh _ id "games" (gameCache w1) _ Hk).
    + reflexivity.
    + simpl. rewrite HD. lia.
Qed.

Lemma getOwnedGames_twice_witness :
  let fetch := always (ok_with (library_body [])) in
  let url := owned_games_url alice in
  let w := initial 0 in
  (let w1 := snd (getOwnedGames fetch alice false w) in
   let w2 := snd (getOwnedGames fetch alice false (elapse 7 w1)) in
   fetched w2 = fetched w ++ [url; url]) /\
  (let s := snapshot_of alice {| game_count := Some 0; games := Some [] |} [] 1005 in
   let w1 := snd (getOwnedGames fetch alice true w) in
   fetched w1 = fetched w ++ [url] /\
   getOwnedGames fetch alice true (elapse 3600000 w1) = (Returns s, elapse 3600000 w1)).
Proof.
  intros fetch url w. split.
  - apply (getOwnedGames_twice fetch alice w 7 eq_refl).
  - apply (getOwnedGames_twice fetch alice w 3600000 eq_refl).
    + reflexivity.
    + vm_compute. reflexivity.
    + vm_compute. discriminate.
Defined.

(** ** Failures and the cache *)

(** C10, as stated, fails: a call with caching enabled that finds an entry too
    old deletes it before it goes to the network, and the entry stays deleted
    when the request then fails. *)
Lemma failure_can_evict : ~ failure_leaves_cache_unchanged.
Proof.
  intros H.
  specialize (H (always (failing_with 403)) alice true stale_world _ _ eq_refl).
  apply (f_equal (fun c => GameCache.cache c !! GameCache.generateKey alice "games"))
    in H.
  vm_compute in H. discriminate H.
Qed.

(** C10, amended: a call that fails writes no cache entry: the duration and
    every entry under another key are as before, and the entry of the
    identifier is as before or, with caching enabled, was too old at the time
    of the call and is deleted; with an invalid identifier nothing at all
    changes, and with caching disabled the cache is not touched.  A call that
    returns a snapshot leaves that snapshot in the cache under the key of the
    identifier. *)
Theorem failure_writes_no_entry fetch id useCache w :
  let key := GameCache.generateKey id "games" in
  let D := GameCache.cacheDuration (gameCache w) in
  (forall e w',
      getOwnedGames fetch id useCache w = (Throws e, w') ->
      GameCache.cacheDuration (gameCache w') = D /\
      (forall k, k <> key ->
         GameCache.cache (gameCache w') !! k = GameCache.cache (gameCache w) !! k) /\
      (GameCache.cache (gameCache w') !! key = GameCache.cache (gameCache w) !! key \/
       (useCache = true /\
        GameCache.cache (gameCache w') !! key = None /\
        exists en, GameCache.cache (gameCache w) !! key = Some en /\
                   clock w - GameCache.timestamp en > D)) /\
      (validateSteamId id = false -> w' = w) /\
      (useCache = false -> gameCache w' = gameCache w)) /\
  (forall s w',
      getOwnedGames fetch id useCache w = (Returns s, w') ->
      exists ts,
        GameCache.cache (gameCache w') !! key
        = Some {| GameCache.data := s; GameCache.timestamp := ts |}).
Proof.
  intros key D. split.
  - intros e w' Hcall.
    destruct (validateSteamId id) eqn:Hv.
    + destruct (hit_or_miss id useCache w Hv) as [Hreach | [-> [s Hhit]]].
      * rewrite (getOwnedGames_miss fetch id useCache w Hreach) in Hcall.
        apply requestOwnedGames_throws_cache in Hcall. rewrite Hcall.
        unfold looked_up. destruct useCache.
        -- split; [ apply get_cacheDuration | ].
           split; [ intros k Hk; apply get_lookup_other; exact Hk | ].
           split; [ | split; discriminate ].
           destruct (get_lookup_key (clock w) id "games" (gameCache w))
             as [Hsame | [Hnone Hold]].
           ++ left. exact Hsame.
           ++ right. split; [ reflexivity | split; assumption ].
        -- split; [ reflexivity | ]. split; [ reflexivity | ].
           split; [ left; reflexivity | ]. split; [ discriminate | reflexivity ].
      * rewrite (getOwnedGames_hit fetch id w s Hv Hhit) in Hcall. discriminate Hcall.
    + rewrite (getOwnedGames_invalid fetch id useCache w Hv) in Hcall.
      injection Hcall as <- <-.
      split; [ reflexivity | ]. split; [ reflexivity | ].
      split; [ left; reflexivity | ]. split; reflexivity.
  - intros s w' Hcall.
    destruct (validateSteamId id) eqn:Hv.
    + destruct (hit_or_miss id useCache w Hv) as [Hreach | [-> [s' Hhit]]].
      * rewrite (getOwnedGames_miss fetch id useCache w Hreach) in Hcall.
        destruct (requestOwnedGames_cases fetch id (looked_up id useCache w))
          as [t [[e H] | [og [gs H]]]]; cbv zeta in H; rewrite H in Hcall.
        -- discriminate Hcall.
        -- injection Hcall as <- <-. eexists. simpl. apply lookup_insert_eq.
      * rewrite (getOwnedGames_hit fetch id w s' Hv Hhit) in Hcall.
        injection Hcall as <- <-.
        destruct (get_hit_inv _ _ _ _ _ Hhit) as [[d ts] [Hk [Hd _]]].
        simpl in Hd. subst d. exists ts. exact Hk.
    + rewrite (getOwnedGames_invalid fetch id useCache w Hv) in Hcall.
      discriminate Hcall.
Qed.

Lemma failure_writes_no_entry_witness :
  let w' := snd (getOwnedGames (always (failing_with 500)) alice true stale_world) in
  GameCache.cache (gameCache w') !! GameCache.generateKey bob "games"
  = GameCache.cache (gameCache stale_world) !! GameCache.generateKey bob "games" /\
  snd (getOwnedGames (always (failing_with 500)) (VStr "alice") true stale_world)
  = stale_world.
Proof.
  split.
  - apply (proj1 (failure_writes_no_entry (always (failing_with 500)) alice true
                    stale_world) (Error STEAM_ERRORS.API_UNAVAILABLE) _ eq_refl).
    vm_compute. discriminate.
  - apply (proj1 (failure_writes_no_entry (always (failing_with 500)) (VStr "alice")
                    true stale_world) (Error STEAM_ERRORS.INVALID_STEAM_ID) _ eq_refl).
    reflexivity.
Defined.

(** ** The overlap of several libraries *)

Lemma appearsInAll_survives libraries g :
  appearsInAll libraries g = true <-> survives libraries g.
Proof.
  unfold appearsInAll, survives, survives_id, occurs_in.
  rewrite forallb_forall, Forall_forall. 
  split; intros H lib Hlib.
  - apply list_elem_of_In in Hlib. specialize (H lib Hlib).
    apply existsb_exists in H as [g' [Hin Heq]].
    apply Z.eqb_eq in Heq. rewrite <- Heq.
    apply list_elem_of_fmap_2, list_elem_of_In, Hin.
  - apply list_elem_of_In in Hlib. specialize (H lib Hlib).
    apply list_elem_of_fmap in H as [g' [Heq Hin]].
    apply existsb_exists. exists g'. split.
    + apply list_elem_of_In, Hin.
    + apply Z.eqb_eq. congruence.
Qed.

(** The loop that pushes the surviving games is the filter of the
    specification. *)
Lemma overlappingGames_filter n libraries firstLibrary :
  overlappingGames n libraries firstLibrary
  = to_overlap n <$> filter (survives libraries) firstLibrary.
Proof.
  unfold overlappingGames.
  enough (forall acc,
             fold_left
               (fun acc g =>
                  if appearsInAll libraries g then acc ++ [to_overlap n g] else acc)
               firstLibrary acc
             = acc ++ (to_overlap n <$> filter (survives libraries) firstLibrary))
    as H by apply (H []).
  induction firstLibrary as [| g gs IH]; intros acc; simpl.
  - rewrite app_nil_r. reflexivity.
  - rewrite IH, filter_cons.
    destruct (appearsInAll libraries g) eqn:Hg.
    + apply appearsInAll_survives in Hg. rewrite decide_True by assumption.
      rewrite <- app_assoc. reflexivity.
    + rewrite decide_False; [ reflexivity | ].
      intros Hs. apply appearsInAll_survives in Hs. congruence.
Qed.

Section Aggregation.
Variable fetch : nat -> string -> reply.

(** The loop over the identifiers never throws: it appends the libraries of
    the specification to the array. *)
Lemma fetchLibraries_libraries_of steamIds : forall libraries w,
  fetchLibraries fetch steamIds libraries w =
  (Returns (libraries ++ fst (libraries_of fetch steamIds w)),
   snd (libraries_of fetch steamIds w)).
Proof.
  induction steamIds as [| id rest IH]; intros libraries w; simpl.
  - rewrite app_nil_r. reflexivity.
  - unfold bind, try_catch, library_of.
    destruct (getOwnedGames fetch id true w) as [[s | e] w1]; simpl;
      rewrite IH, <- app_assoc; reflexivity.
Qed.

Lemma libraries_of_length steamIds : forall w,
  length (fst (libraries_of fetch steamIds w)) = length steamIds.
Proof.
  induction steamIds as [| id rest IH]; intros w; simpl;
    [ reflexivity | rewrite IH; reflexivity ].
Qed.

Lemma findOverlappingGames_intersection steamIds w :
  (2 <= length steamIds)%nat ->
  findOverlappingGames fetch (Some steamIds) w =
  (Returns (intersection (Z.of_nat (length steamIds))
                         (fst (libraries_of fetch steamIds w))),
   snd (libraries_of fetch steamIds w)).
Proof.
  intros Hlen. unfold findOverlappingGames.
  destruct (Nat.ltb_spec (length steamIds) 2) as [Hlt | _]; [ lia | ].
  unfold bind. rewrite fetchLibraries_libraries_of. simpl.
  destruct (fst (libraries_of fetch steamIds w)) as [| first others];
    [ reflexivity | ].
  unfold ret, intersection. rewrite overlappingGames_filter. reflexivity.
Qed.
End Aggregation.

Lemma intersection_ownedBy n libraries :
  Forall (fun r => Overlap.ownedBy r = n) (intersection n libraries).
Proof.
  destruct libraries as [| first others]; simpl; [ constructor | ].
  apply Forall_fmap, Forall_forall. intros g _. reflexivity.
Qed.

Lemma appIds_filter n libraries (gs : list game) :
  Overlap.appId <$> (to_overlap n <$> filter (survives libraries) gs)
  = filter (fun a => Forall (fun ids => a ∈ ids) (appids <$> libraries))
           (Game.appid <$> gs).
Proof.
  induction gs as [| g gs IH]; [ reflexivity | ].
  rewrite fmap_cons, !filter_cons.
  assert (Hiff : survives libraries g <->
                 Forall (fun ids => Game.appid g ∈ ids) (appids <$> libraries)).
  { unfold survives, survives_id, occurs_in. rewrite Forall_fmap. reflexivity. }
  destruct (decide (survives libraries g)) as [Hs | Hs].
  - rewrite decide_True by (apply Hiff; exact Hs).
    rewrite !fmap_cons. simpl. f_equal. exact IH.
  - rewrite decide_False by (rewrite <- Hiff; exact Hs). exact IH.
Qed.

(** The application ids of the result: those of the first library that are
    among the ids of every library, in the order of the first library. *)
Lemma intersection_appIds n first others :
  Overlap.appId <$> intersection n (first :: others)
  = filter (fun a => Forall (fun ids => a ∈ ids) (appids <$> first :: others))
           (appids first).
Proof. apply appIds_filter. Qed.

Lemma filter_appId_intersection n libraries (first : list game) a :
  survives_id libraries a ->
  length (filter (fun r => Overlap.appId r = a)
                 (to_overlap n <$> filter (survives libraries) first))
  = length (filter (fun g => Game.appid g = a) first).
Proof.
  intros Ha. induction first as [| g gs IH]; [ reflexivity | ].
  rewrite (filter_cons (fun g => Game.appid g = a)), (filter_cons (survives libraries)).
  destruct (decide (Game.appid g = a)) as [Hg | Hg].
  - rewrite decide_True by (unfold survives; rewrite Hg; exact Ha).
    rewrite fmap_cons, filter_cons, decide_True by exact Hg.
    simpl. rewrite IH. reflexivity.
  - destruct (decide (survives libraries g)).
    + rewrite fmap_cons, filter_cons, decide_False by exact Hg. exact IH.
    + exact IH.
Qed.

Lemma NoDup_filter_eq (a : Z) (l : list Z) :
  NoDup l -> (length (filter (fun x => x = a) l) <= 1)%nat.
Proof.
  induction 1 as [| x l Hx Hnd IH]; [ simpl; lia | ].
  rewrite filter_cons. destruct (decide (x = a)) as [-> | _]; [ | exact IH ].
  simpl. enough (filter (fun x => x = a) l = []) as -> by (simpl; lia).
  destruct (filter (fun x => x = a) l) as [| y l'] eqn:Hf; [ reflexivity | ].
  exfalso. apply Hx.
  assert (Hy : y ∈ filter (fun x => x = a) l) by (rewrite Hf; left).
  apply list_elem_of_filter in Hy as [-> Hin]. exact Hin.
Qed.

Lemma filter_fmap_appId (a : Z) (res : list overlap) :
  length (filter (fun x => x = a) (Overlap.appId <$> res))
  = length (filter (fun r => Overlap.appId r = a) res).
Proof.
  induction res as [| r res IH]; [ reflexivity | ].
  rewrite fmap_cons, !filter_cons.
  destruct (decide (Overlap.appId r = a)); simpl; rewrite IH; reflexivity.
Qed.

Lemma findOverlappingGames_first_library fetch steamIds w :
  (2 <= length steamIds)%nat ->
  let libraries := fst (libraries_of fetch steamIds w) in
  exists first,
    head libraries = Some first /\
    fst (findOverlappingGames fetch (Some steamIds) w)
    = Returns (to_overlap (Z.of_nat (length steamIds)) <$>
                 filter (survives libraries) (Library.games first)).
Proof.
  intros Hlen libraries.
  pose proof (libraries_of_length fetch steamIds w) as Hl. fold libraries in Hl.
  pose proof (findOverlappingGames_intersection fetch steamIds w Hlen) as Hrun.
  fold libraries in Hrun.
  destruct libraries as [| first others]; [ simpl in Hl; lia | ].
  exists first. split; [ reflexivity | ]. rewrite Hrun. reflexivity.
Qed.

(** A library without games empties the intersection. *)
Lemma intersection_with_empty n libraries lib :
  lib ∈ libraries ->
  Library.games lib = [] ->
  intersection n libraries = [].
Proof.
  intros Hin Hempty. destruct libraries as [| first others]; [ reflexivity | ].
  unfold intersection.
  enough (filter (survives (first :: others)) (Library.games first) = []) as ->
      by reflexivity.
  induction (Library.games first) as [| g gs IH]; [ reflexivity | ].
  rewrite filter_cons, decide_False; [ exact IH | ].
  intros Hs. unfold survives, survives_id in Hs.
  rewrite Forall_forall in Hs. specialize (Hs lib Hin).
  unfold occurs_in, appids in Hs. rewrite Hempty in Hs. inversion Hs.
Qed.

Lemma library_of_failed fetch id w e :
  fst (getOwnedGames fetch id true w) = Throws e ->
  Library.games (fst (library_of fetch id w)) = [].
Proof.
  unfold library_of. destruct (getOwnedGames fetch id true w) as [[s | e'] w'];
    [ discriminate | reflexivity ].
Qed.

(** C3: for at least two identifiers, [findOverlappingGames] returns one record
    for each game of the first fetched library whose application id occurs in
    every fetched library (a failed fetch counting as an empty library), in
    the order of the first library, each record carrying the number of
    identifiers requested as its owner count; so when the two fetched
    libraries hold the ids 730, 570, 440 and 730, 570, 1086940, the result is
    the games 730 and 570, each with owner count 2. *)
Theorem overlap_is_intersection fetch steamIds w :
  (2 <= length steamIds)%nat ->
  let n := Z.of_nat (length steamIds) in
  let libraries := fst (libraries_of fetch steamIds w) in
  exists first result,
    length libraries = length steamIds /\
    head libraries = Some first /\
    fst (findOverlappingGames fetch (Some steamIds) w) = Returns result /\
    result = to_overlap n <$> filter (survives libraries) (Library.games first) /\
    Forall (fun r => Overlap.ownedBy r = n) result /\
    (appids <$> libraries = [[730; 570; 440]; [730; 570; 1086940]] ->
     Overlap.appId <$> result = [730; 570] /\
     Forall (fun r => Overlap.ownedBy r = 2) result).
Proof.
  intros Hlen n libraries.
  pose proof (libraries_of_length fetch steamIds w) as Hl. fold libraries in Hl.
  pose proof (findOverlappingGames_intersection fetch steamIds w Hlen) as Hrun.
  fold libraries n in Hrun.
  pose proof (intersection_ownedBy n libraries) as Hown.
  destruct libraries as [| first others] eqn:Hlibs; [ simpl in Hl; lia | ].
  exists first, (intersection n (first :: others)).
  split; [ exact Hl | ]. split; [ reflexivity | ].
  split; [ rewrite Hrun; reflexivity | ]. split; [ reflexivity | ].
  split; [ exact Hown | ]. intros Hids.
  split.
  - rewrite intersection_appIds, Hids.
    injection Hids as -> _. reflexivity.
  - assert (n = 2) as <-; [ | exact Hown ].
    apply (f_equal length) in Hids. rewrite length_fmap, Hl in Hids.
    subst n. simpl in Hids. lia.
Qed.

Lemma overlap_is_intersection_witness :
  exists first result,
    length (fst (libraries_of A_then_B [alice; bob] (initial 0))) = 2%nat /\
    head (fst (libraries_of A_then_B [alice; bob] (initial 0))) = Some first /\
    fst (findOverlappingGames A_then_B (Some [alice; bob]) (initial 0))
    = Returns result /\
    result = [ {| Overlap.appId := 730; Overlap.name := "Counter-Strike 2";
                  Overlap.imgIconUrl := None; Overlap.ownedBy := 2 |};
               {| Overlap.appId := 570; Overlap.name := "Dota 2";
                  Overlap.imgIconUrl := None; Overlap.ownedBy := 2 |} ].
Proof.
  destruct (overlap_is_intersection A_then_B [alice; bob] (initial 0))
    as [first [result [Hl [Hh [Hr [Hres _]]]]]]; [ simpl; lia | ].
  exists first, result. split; [ exact Hl | ]. split; [ exact Hh | ].
  split; [ exact Hr | ]. rewrite Hres.
  injection Hh as <-. vm_compute. reflexivity.
Defined.

(** C5: for at least two identifiers [findOverlappingGames] returns, whatever
    the single fetches do; an identifier whose fetch fails adds a library with
    no games and the loop goes on with the next identifier; with two
    identifiers of which the second fetch fails the result is the empty
    sequence. *)
Theorem overlap_tolerates_failures fetch steamIds w :
  (2 <= length steamIds)%nat ->
  (exists result w',
      findOverlappingGames fetch (Some steamIds) w = (Returns result, w')) /\
  (forall id rest libraries w0 e w1,
      getOwnedGames fetch id true w0 = (Throws e, w1) ->
      fetchLibraries fetch (id :: rest) libraries w0 =
      fetchLibraries fetch rest
        (libraries ++ [ {| Library.steamId := id; Library.games := [];
                           Library.error := Some (message e) |} ])
        (snd (console_warn (ToString id) (message e) w1))) /\
  (forall id1 id2 e,
      steamIds = [id1; id2] ->
      fst (getOwnedGames fetch id2 true (snd (library_of fetch id1 w))) = Throws e ->
      fst (findOverlappingGames fetch (Some steamIds) w) = Returns []).
Proof.
  intros Hlen. split; [ | split ].
  - eexists _, _. apply findOverlappingGames_intersection, Hlen.
  - intros id rest libraries w0 e w1 Hcall. simpl. unfold bind at 1, try_catch.
    unfold bind at 1. rewrite Hcall. reflexivity.
  - intros id1 id2 e -> Hfail.
    rewrite (findOverlappingGames_intersection fetch [id1; id2] w Hlen).
    cbn [fst libraries_of]. f_equal.
    apply intersection_with_empty
      with (lib := fst (library_of fetch id2 (snd (library_of fetch id1 w)))).
    + right. left.
    + apply (library_of_failed _ _ _ e), Hfail.
Qed.

Lemma overlap_tolerates_failures_witness :
  (exists result w',
      findOverlappingGames A_then_forbidden (Some [alice; bob]) (initial 0)
      = (Returns result, w')) /\
  fst (findOverlappingGames A_then_forbidden (Some [alice; bob]) (initial 0))
  = Returns [].
Proof.
  split.
  - apply (overlap_tolerates_failures A_then_forbidden [alice; bob] (initial 0)).
    simpl. lia.
  - apply (overlap_tolerates_failures A_then_forbidden [alice; bob] (initial 0))
      with (id1 := alice) (id2 := bob) (e := Error STEAM_ERRORS.PRIVATE_PROFILE).
    + simpl. lia.
    + reflexivity.
    + vm_compute. reflexivity.
Defined.

(** C8: with no list, with an empty list and with a single identifier,
    [findOverlappingGames] fails with the error of too few identifiers and
    leaves the world as it was: nothing was fetched, looked up or logged. *)
Theorem too_few_identifiers fetch steamIds w :
  steamIds = None \/
  (exists ids, steamIds = Some ids /\ (length ids < 2)%nat) ->
  findOverlappingGames fetch steamIds w
  = (Throws (Error INSUFFICIENT_IDENTIFIERS), w).
Proof.
  intros [-> | [ids [-> Hlen]]]; [ reflexivity | ].
  unfold findOverlappingGames.
  destruct (Nat.ltb_spec (length ids) 2) as [_ | Hge]; [ reflexivity | lia ].
Qed.

Lemma too_few_identifiers_witness :
  findOverlappingGames A_then_B None (initial 0)
  = (Throws (Error INSUFFICIENT_IDENTIFIERS), initial 0) /\
  findOverlappingGames A_then_B (Some []) (initial 0)
  = (Throws (Error INSUFFICIENT_IDENTIFIERS), initial 0) /\
  findOverlappingGames A_then_B (Some [alice]) (initial 0)
  = (Throws (Error INSUFFICIENT_IDENTIFIERS), initial 0).
Proof.
  split; [ | split ].
  - apply too_few_identifiers. left. reflexivity.
  - apply too_few_identifiers. right. exists []. split; [ reflexivity | simpl; lia ].
  - apply too_few_identifiers. right. exists [alice].
    split; [ reflexivity | simpl; lia ].
Defined.

(** C9: the result is not deduplicated: when an application id occurs in every
    fetched library, the result holds as many records with that id as the
    first library holds games with it; so a first library holding it twice or
    more gives a result in which the id is repeated. *)
Theorem overlap_keeps_duplicates fetch steamIds w a :
  (2 <= length steamIds)%nat ->
  let libraries := fst (libraries_of fetch steamIds w) in
  survives_id libraries a ->
  exists first result,
    head libraries = Some first /\
    fst (findOverlappingGames fetch (Some steamIds) w) = Returns result /\
    length (filter (fun r => Overlap.appId r = a) result)
    = length (filter (fun g => Game.appid g = a) (Library.games first)) /\
    ((2 <= length (filter (fun g => Game.appid g = a) (Library.games first)))%nat ->
     ~ NoDup (Overlap.appId <$> result)).
Proof.
  intros Hlen libraries Ha.
  destruct (findOverlappingGames_first_library fetch steamIds w Hlen)
    as [first [Hh Hr]].
  fold libraries in Hh, Hr.
  exists first, (to_overlap (Z.of_nat (length steamIds)) <$>
                   filter (survives libraries) (Library.games first)).
  split; [ exact Hh | ]. split; [ exact Hr | ].
  pose proof (filter_appId_intersection (Z.of_nat (length steamIds)) libraries
                (Library.games first) a Ha) as Hcount.
  split; [ exact Hcount | ].
  intros Htwice Hnd. apply (NoDup_filter_eq a) in Hnd.
  rewrite filter_fmap_appId, Hcount in Hnd. lia.
Qed.

Lemma overlap_keeps_duplicates_witness :
  exists result,
    fst (findOverlappingGames twice_then_B (Some [alice; bob]) (initial 0))
    = Returns result /\
    Overlap.appId <$> result = [730; 570; 730] /\
    ~ NoDup (Overlap.appId <$> result).
Proof.
  destruct (overlap_keeps_duplicates twice_then_B [alice; bob] (initial 0) 730)
    as [first [result [Hh [Hr [_ Hnd]]]]].
  - simpl. lia.
  - vm_compute. repeat constructor.
  - exists result. split; [ exact Hr | ]. split.
    + vm_compute in Hr. injection Hr as <-. reflexivity.
    + apply Hnd. injection Hh as <-. vm_compute. lia.
Defined.

(** * Further properties *)

(** ** Cache keys *)

Lemma append_cancel (s a b : string) : s +:+ a = s +:+ b -> a = b.
Proof.
  induction s as [| c s IH]; simpl; [ trivial | ].
  intros [= H]. apply IH, H.
Qed.

(** X1: The key is built from the kind and from the string form of the identifier
    only: the keys of the kinds "games" and "profile" never coincide, whatever
    the identifiers, and under one kind two identifiers have the same key
    exactly when they have the same string form. *)
Theorem generateKey_collisions :
  (forall id1 id2,
      @GameCache.generateKey id1 "games" <> @GameCache.generateKey id2 "profile") /\
  (forall kind id1 id2,
      @GameCache.generateKey id1 kind = @GameCache.generateKey id2 kind <->
      ToString id1 = ToString id2).
Proof.
  split.
  - intros id1 id2 H. unfold GameCache.generateKey in H. simpl in H.
    discriminate H.
  - intros kind id1 id2. unfold GameCache.generateKey. split.
    + intros H. apply append_cancel in H. apply append_cancel in H.
      apply (append_cancel "_"), H.
    + intros ->. reflexivity.
Qed.

Section CacheSweep.
Context {payload : Type}.
Implicit Types (c : GameCache.t payload) (p : payload).

(** X2: [set] overwrites: of two writes under one key only the second is left,
    with its payload and its time; and a write under one key leaves what
    [get] returns under every other key as it was. *)
Theorem set_overwrites c id kind p1 p2 (t1 t2 : Z) :
  GameCache.set t2 id p2 kind (GameCache.set t1 id p1 kind c)
  = GameCache.set t2 id p2 kind c /\
  (forall id' kind' now,
      GameCache.generateKey id' kind' <> GameCache.generateKey id kind ->
      fst (GameCache.get now id' kind' (GameCache.set t1 id p1 kind c))
      = fst (GameCache.get now id' kind' c)).
Proof.
  split.
  - unfold GameCache.set. simpl. f_equal. apply insert_insert_eq.
  - intros id' kind' now Hne. unfold GameCache.get, GameCache.set. simpl.
    rewrite lookup_insert_ne by congruence.
    destruct (GameCache.cache c !! _) as [e |]; [ | reflexivity ].
    destruct (_ >? _); reflexivity.
Qed.

Lemma sweep_lookup now (D : Z) (m acc : gmap string (GameCache.entry payload)) k :
  map_fold
    (fun key value r =>
       if now - GameCache.timestamp value >? D then delete key r else r) acc m !! k
  = match m !! k with
    | Some e => if now - GameCache.timestamp e >? D then None else acc !! k
    | None => acc !! k
    end.
Proof.
  revert k.
  apply (map_fold_weak_ind
           (fun r m => forall k,
                r !! k = match m !! k with
                         | Some e => if now - GameCache.timestamp e >? D
                                     then None else acc !! k
                         | None => acc !! k
                         end)); clear m.
  - intros k. rewrite lookup_empty. reflexivity.
  - intros i x m r Hi IH k. destruct (decide (k = i)) as [-> | Hk].
    + rewrite lookup_insert_eq. destruct (_ >? _).
      * apply lookup_delete_eq.
      * rewrite IH, Hi. reflexivity.
    + rewrite lookup_insert_ne by congruence. rewrite <- IH.
      destruct (_ >? _); [ apply lookup_delete_ne; congruence | reflexivity ].
Qed.

Lemma cleanup_lookup now c k e :
  GameCache.cache (GameCache.cleanup now c) !! k = Some e <->
  GameCache.cache c !! k = Some e /\
  now - GameCache.timestamp e <= GameCache.cacheDuration c.
Proof.
  simpl. rewrite sweep_lookup.
  destruct (GameCache.cache c !! k) as [e' |] eqn:Hk.
  - rewrite Z.gtb_ltb.
    destruct (Z.ltb_spec (GameCache.cacheDuration c)
                (now - GameCache.timestamp e')).
    + split; [ discriminate | ]. intros [[= <-] Hage]. lia.
    + split; [ intros [= <-]; split; [ reflexivity | lia ] | ].
      intros [Hx _]. exact Hx.
  - split; [ discriminate | intros [Hx _]; discriminate Hx ].
Qed.

Lemma cleanup_fresh_entries now c :
  GameCache.cache (GameCache.cleanup now c) = fresh_entries now c.
Proof.
  apply map_eq. intros k. apply option_eq. intros e.
  rewrite cleanup_lookup. unfold fresh_entries. rewrite map_lookup_filter_Some.
  reflexivity.
Qed.

(** X3: [cleanup] keeps exactly the entries that are not older than the duration,
    each one unchanged, and keeps the duration. *)
Theorem cleanup_keeps_fresh now c :
  GameCache.cacheDuration (GameCache.cleanup now c) = GameCache.cacheDuration c /\
  GameCache.cache (GameCache.cleanup now c) = fresh_entries now c /\
  forall k e,
    GameCache.cache (GameCache.cleanup now c) !! k = Some e <->
    GameCache.cache c !! k = Some e /\
    now - GameCache.timestamp e <= GameCache.cacheDuration c.
Proof.
  split; [ reflexivity | ]. split; [ apply cleanup_fresh_entries | ].
  apply cleanup_lookup.
Qed.
End CacheSweep.

Lemma set_overwrites_witness :
  fst (GameCache.get 5 alice "profile" (GameCache.set 1 alice 7%nat "games" GameCache.new))
  = fst (GameCache.get 5 alice "profile" (@GameCache.new nat)).
Proof.
  apply (proj2 (set_overwrites (@GameCache.new nat) alice "games" 7%nat 7%nat 1 1)).
  vm_compute. discriminate.
Defined.

Section CacheStats.
Context {payload : Type}.
Implicit Types (c : GameCache.t payload) (p : payload).

Lemma cache_eq c1 c2 :
  GameCache.cache c1 = GameCache.cache c2 ->
  GameCache.cacheDuration c1 = GameCache.cacheDuration c2 ->
  c1 = c2.
Proof. destruct c1, c2. simpl. intros -> ->. reflexivity. Qed.

Lemma cleanup_cache_ext now c c' :
  GameCache.cacheDuration c' = GameCache.cacheDuration c ->
  (forall k e,
      GameCache.cache c' !! k = Some e <->
      GameCache.cache c !! k = Some e /\
      now - GameCache.timestamp e <= GameCache.cacheDuration c) ->
  c' = GameCache.cleanup now c.
Proof.
  intros HD H. apply cache_eq; [ | exact HD ].
  apply map_eq. intros k. apply option_eq. intros e.
  rewrite H, cleanup_lookup. reflexivity.
Qed.

Lemma get_after_cleanup now id kind c :
  GameCache.get now id kind (GameCache.cleanup now c)
  = (fst (GameCache.get now id kind c), GameCache.cleanup now c).
Proof.
  set (key := GameCache.generateKey id kind).
  destruct (GameCache.cache c !! key) as [e |] eqn:Hk.
  - destruct (Z_le_gt_dec (now - GameCache.timestamp e)
                (GameCache.cacheDuration c)) as [Hage | Hage].
    + rewrite (get_fresh now id kind c e Hk Hage).
      apply (get_fresh now id kind (GameCache.cleanup now c) e);
        [ apply cleanup_lookup; split; assumption | exact Hage ].
    + rewrite (get_expired now id kind c e Hk Hage).
      apply get_absent. fold key.
      destruct (GameCache.cache (GameCache.cleanup now c) !! key) as [e' |] eqn:Hk';
        [ | reflexivity ].
      apply cleanup_lookup in Hk' as [Hk' Hage']. fold key in Hk.
      rewrite Hk in Hk'. injection Hk' as <-. lia.
  - rewrite (get_absent now id kind c Hk).
    apply get_absent. fold key.
    destruct (GameCache.cache (GameCache.cleanup now c) !! key) as [e' |] eqn:Hk';
      [ | reflexivity ].
    apply cleanup_lookup in Hk' as [Hk' _]. congruence.
Qed.

Lemma cleanup_after_get now id kind c :
  GameCache.cleanup now (snd (GameCache.get now id kind c))
  = GameCache.cleanup now c.
Proof.
  set (key := GameCache.generateKey id kind).
  symmetry. apply cleanup_cache_ext.
  - simpl. symmetry. apply get_cacheDuration.
  - intros k e. rewrite cleanup_lookup, get_cacheDuration.
    destruct (decide (k = key)) as [-> | Hne].
    + destruct (get_lookup_key now id kind c) as [Hsame | [Hnone [en [Hen Hold]]]].
      * fold key in Hsame. rewrite Hsame. reflexivity.
      * fold key in Hnone, Hen. rewrite Hnone, Hen. split.
        -- intros [[= <-] Hage]. lia.
        -- intros [Hx _]. discriminate Hx.
    + rewrite (get_lookup_other now id kind c k Hne). reflexivity.
Qed.

Lemma cleanup_idempotent now c :
  GameCache.cleanup now (GameCache.cleanup now c) = GameCache.cleanup now c.
Proof.
  symmetry. apply cleanup_cache_ext; [ reflexivity | ].
  intros k e. rewrite !cleanup_lookup. simpl. tauto.
Qed.

(** X4: The periodic sweep and the eviction done by [get] agree: at one instant,
    [get] returns the same before and after [cleanup]; after [cleanup] it
    finds nothing to delete; a [cleanup] that follows a [get], or another
    [cleanup], gives the cache a single [cleanup] gives. *)
Theorem cleanup_and_get now id kind c :
  fst (GameCache.get now id kind (GameCache.cleanup now c))
  = fst (GameCache.get now id kind c) /\
  snd (GameCache.get now id kind (GameCache.cleanup now c))
  = GameCache.cleanup now c /\
  GameCache.cleanup now (snd (GameCache.get now id kind c))
  = GameCache.cleanup now c /\
  GameCache.cleanup now (GameCache.cleanup now c) = GameCache.cleanup now c.
Proof.
  split; [ rewrite get_after_cleanup; reflexivity | ].
  split; [ rewrite get_after_cleanup; reflexivity | ].
  split; [ apply cleanup_after_get | apply cleanup_idempotent ].
Qed.

Lemma stats_counts now (D : Z) (m : gmap string (GameCache.entry payload)) :
  let counts :=
    map_fold
      (fun (_ : string) value (counts : Z * Z) =>
         let (validEntries, expiredEntries) := counts in
         if now - GameCache.timestamp value >? D
         then (validEntries, expiredEntries + 1)
         else (validEntries + 1, expiredEntries))
      (0, 0) m in
  fst counts
  = Z.of_nat (size (filter (fun kv => now - GameCache.timestamp kv.2 <= D) m)) /\
  snd counts
  = Z.of_nat (size (filter (fun kv => now - GameCache.timestamp kv.2 > D) m)) /\
  fst counts + snd counts = Z.of_nat (size m).
Proof.
  cbv zeta.
  apply (map_fold_weak_ind
           (fun counts m =>
              fst counts
              = Z.of_nat (size (filter (fun kv => now - GameCache.timestamp kv.2 <= D) m)) /\
              snd counts
              = Z.of_nat (size (filter (fun kv => now - GameCache.timestamp kv.2 > D) m)) /\
              fst counts + snd counts = Z.of_nat (size m))); clear m.
  - rewrite !map_filter_empty, map_size_empty. simpl. lia.
  - intros i x m [v e] Hi [Hv [He Hsum]]. simpl in Hv, He, Hsum.
    rewrite (map_size_insert_None _ _ _ Hi). rewrite Z.gtb_ltb.
    destruct (Z.ltb_spec D (now - GameCache.timestamp x)) as [Hold | Hfresh]; simpl.
    + rewrite (map_filter_insert_not' _ m i x);
        [ | simpl; lia | intros y Hy; congruence ].
      rewrite (map_filter_insert_True _ m i x) by (simpl; lia).
      rewrite map_size_insert_None
        by (apply map_lookup_filter_None; left; exact Hi).
      lia.
    + rewrite (map_filter_insert_True _ m i x) by (simpl; lia).
      rewrite (map_filter_insert_not' (fun kv => now - GameCache.timestamp kv.2 > D) m i x);
        [ | simpl; lia | intros y Hy; congruence ].
      rewrite map_size_insert_None
        by (apply map_lookup_filter_None; left; exact Hi).
      lia.
Qed.

Lemma getStats_sizes now c :
  let s := GameCache.getStats now c in
  GameCache.Stats.validEntries s = Z.of_nat (size (fresh_entries now c)) /\
  GameCache.Stats.expiredEntries s = Z.of_nat (size (stale_entries now c)) /\
  GameCache.Stats.validEntries s + GameCache.Stats.expiredEntries s
  = GameCache.Stats.totalEntries s.
Proof.
  cbv zeta. unfold GameCache.getStats, fresh_entries, stale_entries. simpl.
  destruct (stats_counts now (GameCache.cacheDuration c) (GameCache.cache c))
    as [Hv [He Hsum]].
  cbv zeta in Hv, He, Hsum. rewrite Hv, He.
  split; [ reflexivity | ]. split; [ reflexivity | ].
  rewrite <- Hsum, Hv, He. reflexivity.
Qed.

(** X5: [getStats] counts what it says: the valid entries are the ones not older
    than the duration, the expired entries the ones older, and together they
    are all the entries of the map. *)
Theorem getStats_counts now c :
  let s := GameCache.getStats now c in
  GameCache.Stats.validEntries s = Z.of_nat (size (fresh_entries now c)) /\
  GameCache.Stats.expiredEntries s = Z.of_nat (size (stale_entries now c)) /\
  GameCache.Stats.validEntries s + GameCache.Stats.expiredEntries s
  = GameCache.Stats.totalEntries s /\
  GameCache.Stats.totalEntries s = Z.of_nat (size (GameCache.cache c)) /\
  GameCache.Stats.cacheDuration s = GameCache.cacheDuration c.
Proof.
  cbv zeta. destruct (getStats_sizes now c) as [Hv [He Hsum]].
  cbv zeta in Hv, He, Hsum.
  split; [ exact Hv | ]. split; [ exact He | ]. split; [ exact Hsum | ].
  split; reflexivity.
Qed.

(** X6: After a [cleanup], statistics taken at the same instant show no expired
    entry, and as valid entries, and as all entries, the entries that were
    valid before. *)
Theorem getStats_after_cleanup now c :
  let before := GameCache.getStats now c in
  let after := GameCache.getStats now (GameCache.cleanup now c) in
  GameCache.Stats.expiredEntries after = 0 /\
  GameCache.Stats.validEntries after = GameCache.Stats.validEntries before /\
  GameCache.Stats.totalEntries after = GameCache.Stats.validEntries before.
Proof.
  cbv zeta.
  destruct (getStats_sizes now c) as [Hv _].
  destruct (getStats_sizes now (GameCache.cleanup now c)) as [Hv' [He' Hsum']].
  cbv zeta in Hv, Hv', He', Hsum'.
  assert (Hfresh : fresh_entries now (GameCache.cleanup now c) = fresh_entries now c).
  { rewrite <- !cleanup_fresh_entries, cleanup_idempotent. reflexivity. }
  rewrite Hfresh in Hv'.
  assert (Htotal : GameCache.Stats.totalEntries
                     (GameCache.getStats now (GameCache.cleanup now c))
                   = Z.of_nat (size (fresh_entries now c))).
  { change (GameCache.Stats.totalEntries
              (GameCache.getStats now (GameCache.cleanup now c)))
      with (Z.of_nat (size (GameCache.cache (GameCache.cleanup now c)))).
    rewrite cleanup_fresh_entries. reflexivity. }
  rewrite Hv. split; [ lia | split; [ exact Hv' | exact Htotal ] ].
Qed.
End CacheStats.

(** ** The rate limiter *)

Lemma acquisitions_clock n : forall w,
  clock w = lastRequestTime w ->
  acquisitions n w =
  (Returns tt,
   {| gameCache := gameCache w;
      requestCount := requestCount w + Z.of_nat n;
      lastRequestTime := lastRequestTime w + 1000 * Z.of_nat n;
      clock := clock w + 1000 * Z.of_nat n;
      fetched := fetched w; warnings := warnings w |}).
Proof.
  induction n as [| n IH]; intros w Hw.
  - simpl. unfold ret. destruct w; simpl. rewrite !Z.add_0_r. reflexivity.
  - cbn [acquisitions]. unfold bind. rewrite enforceRateLimit_granted.
    rewrite IH by reflexivity.
    unfold granted.
    change (1000 / STEAM_CONFIG.REQUESTS_PER_SECOND) with 1000.
    cbn [gameCache requestCount lastRequestTime clock fetched warnings].
    rewrite <- Hw.
    replace (Z.max (clock w) (clock w + 1000)) with (clock w + 1000) by lia.
    replace (requestCount w + 1 + Z.of_nat n)
      with (requestCount w + Z.of_nat (S n)) by lia.
    replace (clock w + 1000 + 1000 * Z.of_nat n)
      with (clock w + 1000 * Z.of_nat (S n)) by lia.
    reflexivity.
Qed.

(** X7: [enforceRateLimit] always lets the caller through, counts the request, and
    sets the time of the last request to the time it returns at, which is at
    least one interval of 1000 ms after the previous last request; it waits
    only when less than the interval has passed, and touches neither the
    cache nor the transport.  [n] further acquisitions made right after one
    take exactly [n] intervals. *)
Theorem enforceRateLimit_spacing w :
  let w' := snd (enforceRateLimit w) in
  fst (enforceRateLimit w) = Returns tt /\
  lastRequestTime w' = clock w' /\
  lastRequestTime w + 1000 <= lastRequestTime w' /\
  clock w <= clock w' /\
  (1000 <= clock w - lastRequestTime w -> clock w' = clock w) /\
  requestCount w' = requestCount w + 1 /\
  gameCache w' = gameCache w /\ fetched w' = fetched w /\
  forall n,
    fst (acquisitions n w') = Returns tt /\
    clock (snd (acquisitions n w')) = clock w' + 1000 * Z.of_nat n /\
    requestCount (snd (acquisitions n w')) = requestCount w' + Z.of_nat n.
Proof.
  cbv zeta. rewrite enforceRateLimit_granted. unfold granted.
  change (1000 / STEAM_CONFIG.REQUESTS_PER_SECOND) with 1000. simpl.
  split; [ reflexivity | ]. split; [ reflexivity | ].
  split; [ lia | ]. split; [ lia | ]. split; [ lia | ].
  split; [ reflexivity | ]. split; [ reflexivity | ]. split; [ reflexivity | ].
  intros n. rewrite acquisitions_clock by reflexivity. simpl.
  split; [ reflexivity | ]. split; reflexivity.
Qed.

Lemma enforceRateLimit_spacing_witness :
  clock (snd (enforceRateLimit (initial 5000))) = 5000.
Proof.
  apply (enforceRateLimit_spacing (initial 5000)). simpl. lia.
Defined.

(** ** What the service keeps true *)

Lemma owned_games_url_valid id :
  validateSteamId id = true ->
  exists id', validateSteamId id' = true /\ owned_games_url id = owned_games_url id'.
Proof. intros H. exists id. split; [ exact H | reflexivity ]. Qed.

Lemma inv_initial now : service_invariant (initial now).
Proof.
  split; simpl; [ reflexivity | constructor | | reflexivity ].
  intros k e H. rewrite lookup_empty in H. discriminate H.
Qed.

Lemma inv_same_requests w w' :
  service_invariant w ->
  requestCount w' = requestCount w ->
  fetched w' = fetched w ->
  GameCache.cacheDuration (gameCache w') = GameCache.cacheDuration (gameCache w) ->
  (forall k e, GameCache.cache (gameCache w') !! k = Some e ->
               GameCache.cache (gameCache w) !! k = Some e) ->
  service_invariant w'.
Proof.
  intros [Hc Hf He Hd] Hc' Hf' Hd' Hsub. split.
  - rewrite Hc', Hf'. exact Hc.
  - rewrite Hf'. exact Hf.
  - intros k e Hk. apply He, Hsub, Hk.
  - rewrite Hd'. exact Hd.
Qed.

Lemma inv_looked_up id useCache w :
  service_invariant w -> service_invariant (looked_up id useCache w).
Proof.
  intros Hinv. unfold looked_up. destruct useCache; [ | exact Hinv ].
  apply (inv_same_requests w); try reflexivity; [ exact Hinv | | ].
  - simpl. apply get_cacheDuration.
  - intros k e. simpl.
    destruct (decide (k = GameCache.generateKey id "games")) as [-> | Hne].
    + destruct (get_lookup_key (clock w) id "games" (gameCache w))
        as [-> | [-> _]]; [ trivial | discriminate ].
    + rewrite (get_lookup_other _ _ _ _ _ Hne). trivial.
Qed.

Lemma inv_answered id t w :
  validateSteamId id = true ->
  service_invariant w -> service_invariant (answered (owned_games_url id) t w).
Proof.
  intros Hv [Hc Hf He Hd]. split; simpl.
  - rewrite Hc, length_app. simpl. lia.
  - apply Forall_app. split; [ exact Hf | ].
    constructor; [ | constructor ]. exists id. split; [ exact Hv | reflexivity ].
  - exact He.
  - exact Hd.
Qed.

Lemma inv_stored id og gs w :
  validateSteamId id = true ->
  service_invariant w ->
  let s := snapshot_of id og gs (clock w) in
  service_invariant
    (with_gameCache (GameCache.set (clock w) id s "games" (gameCache w)) w).
Proof.
  intros Hv [Hc Hf He Hd] s. split; simpl; [ exact Hc | exact Hf | | exact Hd ].
  intros k e. rewrite lookup_insert. case_decide as Hk.
  - intros [= <-]. simpl. split; [ exact Hv | ]. split; [ congruence | reflexivity ].
  - apply He.
Qed.

Section Invariant.
Variable fetch : nat -> string -> reply.

Lemma inv_getOwnedGames id useCache w :
  service_invariant w ->
  service_invariant (snd (getOwnedGames fetch id useCache w)).
Proof.
  intros Hinv. destruct (validateSteamId id) eqn:Hv.
  - destruct (hit_or_miss id useCache w Hv) as [Hreach | [-> [s Hhit]]].
    + rewrite (getOwnedGames_miss fetch id useCache w Hreach).
      pose proof (inv_looked_up id useCache w Hinv) as Hinv0.
      destruct (requestOwnedGames_cases fetch id (looked_up id useCache w))
        as [t [[e H] | [og [gs H]]]]; cbv zeta in H; rewrite H; cbn [snd].
      * apply inv_answered; assumption.
      * apply (inv_stored id og gs _ Hv), inv_answered; assumption.
    + rewrite (getOwnedGames_hit fetch id w s Hv Hhit). exact Hinv.
  - rewrite (getOwnedGames_invalid fetch id useCache w Hv). exact Hinv.
Qed.

Lemma inv_library_of id w :
  service_invariant w -> service_invariant (snd (library_of fetch id w)).
Proof.
  intros Hinv. pose proof (inv_getOwnedGames id true w Hinv) as H.
  unfold library_of. destruct (getOwnedGames fetch id true w) as [[s | e] w'];
    simpl in *; [ exact H | ].
  apply (inv_same_requests w'); try reflexivity; [ exact H | trivial ].
Qed.

Lemma inv_libraries_of steamIds : forall w,
  service_invariant w -> service_invariant (snd (libraries_of fetch steamIds w)).
Proof.
  induction steamIds as [| id rest IH]; intros w Hinv; simpl; [ exact Hinv | ].
  apply IH, inv_library_of, Hinv.
Qed.

Lemma findOverlappingGames_world steamIds w :
  snd (findOverlappingGames fetch steamIds w) = w \/
  exists ids, steamIds = Some ids /\
              snd (findOverlappingGames fetch steamIds w)
              = snd (libraries_of fetch ids w).
Proof.
  destruct steamIds as [ids |]; [ | left; reflexivity ].
  destruct (le_lt_dec 2 (length ids)) as [Hlen | Hlen].
  - right. exists ids. split; [ reflexivity | ].
    rewrite (findOverlappingGames_intersection fetch ids w Hlen). reflexivity.
  - left. unfold findOverlappingGames.
    destruct (Nat.ltb_spec (length ids) 2); [ reflexivity | lia ].
Qed.

Lemma inv_step w w' :
  step fetch w w' -> service_invariant w -> service_invariant w'.
Proof.
  intros [id useCache w0 | steamIds w0 | w0 | w0 | dt w0] Hinv.
  - apply inv_getOwnedGames, Hinv.
  - destruct (findOverlappingGames_world steamIds w0) as [-> | [ids [_ ->]]];
      [ exact Hinv | apply inv_libraries_of, Hinv ].
  - apply (inv_same_requests w0); try reflexivity; [ exact Hinv | ].
    intros k e Hk. simpl in Hk. apply cleanup_lookup in Hk as [Hk _]. exact Hk.
  - apply (inv_same_requests w0); try reflexivity; [ exact Hinv | ].
    intros k e Hk. simpl in Hk. rewrite lookup_empty in Hk. discriminate Hk.
  - apply (inv_same_requests w0); try reflexivity; [ exact Hinv | trivial ].
Qed.

Lemma reachable_service_invariant w :
  reachable fetch w -> service_invariant w.
Proof.
  intros [now Hrtc]. revert w Hrtc. apply rtc_ind_r.
  - apply inv_initial.
  - intros w1 w2 _ Hstep IH. apply (inv_step w1 w2 Hstep IH).
Qed.

(** X8: In every world the service can reach, whatever the callers did and
    whatever the transport answered, the counter of requests is the number of
    calls made to the transport, and every URL handed to the transport is the
    owned-games URL of an identifier that passed the validator: no request is
    ever sent for an invalid identifier. *)
Theorem requests_are_counted_and_valid w :
  reachable fetch w ->
  requestCount w = Z.of_nat (length (fetched w)) /\
  (exists s, getStats w = (Returns s, w) /\
             ServiceStats.requestCount s = Z.of_nat (length (fetched w))) /\
  Forall (fun url => exists id, validateSteamId id = true /\
                                 url = owned_games_url id) (fetched w).
Proof.
  intros Hr. destruct (reachable_service_invariant w Hr) as [Hc Hf _ _].
  split; [ exact Hc | ]. split; [ | exact Hf ].
  eexists. split; [ reflexivity | exact Hc ].
Qed.

End Invariant.

Lemma requests_are_counted_and_valid_witness :
  let w := snd (findOverlappingGames A_then_B (Some [alice; bob]) (initial 0)) in
  requestCount w = 2 /\ length (fetched w) = 2%nat.
Proof.
  intros w.
  assert (Hr : reachable A_then_B w)
    by (exists 0; apply rtc_once, step_findOverlappingGames).
  destruct (requests_are_counted_and_valid A_then_B w Hr) as [Hc _].
  split; [ rewrite Hc | ]; reflexivity.
Defined.


(** ** How the operations compose *)

Section Composition.
Variable fetch : nat -> string -> reply.

Lemma getOwnedGames_returns_valid id useCache w s w1 :
  getOwnedGames fetch id useCache w = (Returns s, w1) ->
  validateSteamId id = true.
Proof.
  intros H. destruct (validateSteamId id) eqn:Hv; [ reflexivity | ].
  rewrite (getOwnedGames_invalid fetch id useCache w Hv) in H. discriminate H.
Qed.

(** A call that went to the network and returned has stored what it returns,
    stamped with the time it returns at. *)
Lemma getOwnedGames_network_stores id useCache w s w1 :
  reaches_network id useCache w ->
  getOwnedGames fetch id useCache w = (Returns s, w1) ->
  fetched w1 = fetched w ++ [owned_games_url id] /\
  GameCache.cacheDuration (gameCache w1) = GameCache.cacheDuration (gameCache w) /\
  GameCache.cache (gameCache w1) !! GameCache.generateKey id "games"
  = Some {| GameCache.data := s; GameCache.timestamp := clock w1 |}.
Proof.
  intros Hreach Hcall.
  rewrite (getOwnedGames_miss fetch id useCache w Hreach) in Hcall.
  destruct (requestOwnedGames_cases fetch id (looked_up id useCache w))
    as [t [[e H] | [og [gs H]]]]; cbv zeta in H; rewrite H in Hcall.
  - discriminate Hcall.
  - injection Hcall as <- <-. split; [ | split ].
    + simpl. rewrite looked_up_fetched. reflexivity.
    + simpl. unfold looked_up. destruct useCache; [ apply get_cacheDuration | reflexivity ].
    + simpl. apply lookup_insert_eq.
Qed.

(** A stored snapshot is what a cached call returns as long as it is fresh. *)
Lemma getOwnedGames_fresh_entry id w s ts :
  validateSteamId id = true ->
  GameCache.cache (gameCache w) !! GameCache.generateKey id "games"
  = Some {| GameCache.data := s; GameCache.timestamp := ts |} ->
  clock w - ts <= GameCache.cacheDuration (gameCache w) ->
  getOwnedGames fetch id true w = (Returns s, w).
Proof.
  intros Hv Hk Hage. apply getOwnedGames_hit; [ exact Hv | ].
  rewrite (get_fresh _ id "games" (gameCache w) _ Hk Hage). reflexivity.
Qed.

(** X10: A call with caching disabled that succeeds refreshes the cache: it stores
    the snapshot it returns, so that a call with caching enabled made no later
    than the cache duration after it returns that snapshot and does not go to
    the transport. *)
Theorem uncached_call_refreshes_cache id w s w1 dt :
  getOwnedGames fetch id false w = (Returns s, w1) ->
  dt <= GameCache.cacheDuration (gameCache w) ->
  fetched w1 = fetched w ++ [owned_games_url id] /\
  getOwnedGames fetch id true (elapse dt w1) = (Returns s, elapse dt w1).
Proof.
  intros Hcall Hdt.
  pose proof (getOwnedGames_returns_valid id false w s w1 Hcall) as Hv.
  destruct (getOwnedGames_network_stores id false w s w1
              (conj Hv (or_introl eq_refl)) Hcall) as [Hf [HD Hk]].
  split; [ exact Hf | ].
  apply (getOwnedGames_fresh_entry id (elapse dt w1) s (clock w1) Hv Hk).
  simpl. rewrite HD. lia.
Qed.

(** X11: After a first cached call that went to the network and succeeded: when the
    cache is cleared before the second call, the second call goes to the
    transport again; when instead the sweep runs before the second call, and
    the second call comes no later than the cache duration after the first,
    the sweep keeps the entry and the second call returns the snapshot without
    going to the transport. *)
Theorem clear_forces_refetch_cleanup_does_not id w s w1 dt :
  fst (GameCache.get (clock w) id "games" (gameCache w)) = None ->
  getOwnedGames fetch id true w = (Returns s, w1) ->
  fetched (snd (getOwnedGames fetch id true (snd (gameCache_clear (elapse dt w1)))))
  = fetched w ++ [owned_games_url id; owned_games_url id] /\
  (dt <= GameCache.cacheDuration (gameCache w) ->
   getOwnedGames fetch id true (snd (gameCache_cleanup (elapse dt w1)))
   = (Returns s, snd (gameCache_cleanup (elapse dt w1)))).
Proof.
  intros Hmiss Hcall.
  pose proof (getOwnedGames_returns_valid id true w s w1 Hcall) as Hv.
  destruct (getOwnedGames_network_stores id true w s w1
              (conj Hv (or_intror Hmiss)) Hcall) as [Hf [HD Hk]].
  split.
  - rewrite getOwnedGames_miss.
    + rewrite requestOwnedGames_fetched, looked_up_fetched. simpl.
      rewrite Hf, <- app_assoc. reflexivity.
    + split; [ exact Hv | right ]. rewrite get_absent; [ reflexivity | ].
      simpl. apply lookup_empty.
  - intros Hdt.
    apply (getOwnedGames_fresh_entry id _ s (clock w1) Hv).
    + simpl. apply cleanup_lookup. split; [ exact Hk | ]. simpl. rewrite HD. lia.
    + simpl. rewrite HD. lia.
Qed.

Lemma getOwnedGames_again id w s w1 :
  0 <= GameCache.cacheDuration (gameCache w) ->
  getOwnedGames fetch id true w = (Returns s, w1) ->
  getOwnedGames fetch id true w1 = (Returns s, w1).
Proof.
  intros HD Hcall.
  pose proof (getOwnedGames_returns_valid id true w s w1 Hcall) as Hv.
  destruct (hit_or_miss id true w Hv) as [Hreach | [_ [s' Hhit]]].
  - destruct (getOwnedGames_network_stores id true w s w1 Hreach Hcall)
      as [_ [HD' Hk]].
    apply (getOwnedGames_fresh_entry id w1 s (clock w1) Hv Hk). rewrite HD'. lia.
  - rewrite (getOwnedGames_hit fetch id w s' Hv Hhit) in Hcall.
    injection Hcall as <- <-. apply getOwnedGames_hit; assumption.
Qed.

Lemma libraries_of_same id w s n :
  getOwnedGames fetch id true w = (Returns s, w) ->
  libraries_of fetch (replicate n id) w =
  (replicate n {| Library.steamId := id; Library.games := Snapshot.games s;
                  Library.error := None |}, w).
Proof.
  intros Hcall. induction n as [| n IH]; [ reflexivity | ].
  cbn [replicate libraries_of]. cbv zeta. unfold library_of. rewrite Hcall.
  cbn [fst snd]. rewrite IH. reflexivity.
Qed.

Lemma filter_all {A} (P : A -> Prop) `{forall x, Decision (P x)} (l : list A) :
  Forall P l -> filter P l = l.
Proof.
  induction 1 as [| x l Hx _ IH]; [ reflexivity | ].
  rewrite filter_cons, decide_True by exact Hx. f_equal. exact IH.
Qed.

(** X12: The same identifier given [n >= 2] times passes the check on the number
    of identifiers: when its library can be fetched, every game of the
    library, repeated records included, is in the result with owner count
    [n], and the transport is called at most once. *)
Theorem same_identifier_overlap id w s w1 n :
  (2 <= n)%nat ->
  0 <= GameCache.cacheDuration (gameCache w) ->
  getOwnedGames fetch id true w = (Returns s, w1) ->
  findOverlappingGames fetch (Some (replicate n id)) w
  = (Returns (to_overlap (Z.of_nat n) <$> Snapshot.games s), w1) /\
  (fetched w1 = fetched w \/ fetched w1 = fetched w ++ [owned_games_url id]).
Proof.
  intros Hn HD Hcall.
  pose proof (getOwnedGames_returns_valid id true w s w1 Hcall) as Hv.
  pose proof (getOwnedGames_again id w s w1 HD Hcall) as Hagain.
  split.
  - rewrite findOverlappingGames_intersection by (rewrite length_replicate; exact Hn).
    rewrite length_replicate.
    destruct n as [| n]; [ lia | ].
    cbn [replicate libraries_of]. cbv zeta. unfold library_of. rewrite Hcall.
    cbn [fst snd]. rewrite (libraries_of_same id w1 s n Hagain). cbn [fst snd].
    unfold intersection. cbn [Library.games].
    rewrite filter_all; [ reflexivity | ].
    apply Forall_forall. intros g Hg.
    unfold survives, survives_id.
    change (Forall (occurs_in (Game.appid g))
              (replicate (S n) {| Library.steamId := id;
                                  Library.games := Snapshot.games s;
                                  Library.error := None |})).
    apply Forall_replicate. unfold occurs_in, appids. simpl.
    apply list_elem_of_fmap_2. exact Hg.
  - destruct (hit_or_miss id true w Hv) as [Hreach | [_ [s' Hhit]]].
    + right. apply (getOwnedGames_network_stores id true w s w1 Hreach Hcall).
    + left. rewrite (getOwnedGames_hit fetch id w s' Hv Hhit) in Hcall.
      injection Hcall as _ <-. reflexivity.
Qed.

Lemma libraries_of_invalid steamIds : forall w id,
  id ∈ steamIds ->
  validateSteamId id = false ->
  exists lib, lib ∈ fst (libraries_of fetch steamIds w) /\ Library.games lib = [].
Proof.
  induction steamIds as [| id0 rest IH]; intros w id Hin Hv.
  - inversion Hin.
  - cbn [libraries_of fst]. apply elem_of_cons in Hin as [-> | Hin].
    + exists (fst (library_of fetch id0 w)). split; [ left | ].
      apply (library_of_failed fetch id0 w (Error STEAM_ERRORS.INVALID_STEAM_ID)).
      rewrite (getOwnedGames_invalid fetch id0 true w Hv). reflexivity.
    + destruct (IH (snd (library_of fetch id0 w)) id Hin Hv) as [lib [Hl He]].
      exists lib. split; [ right; exact Hl | exact He ].
Qed.

(** X13: One library without games is enough for an empty result: when any of the
    fetched libraries is empty, because the fetch failed or because the user
    owns nothing, and in particular when any identifier of the list fails the
    validator, [findOverlappingGames] returns the empty sequence. *)
Theorem empty_library_empties_overlap steamIds w :
  (2 <= length steamIds)%nat ->
  (forall lib,
      lib ∈ fst (libraries_of fetch steamIds w) ->
      Library.games lib = [] ->
      fst (findOverlappingGames fetch (Some steamIds) w) = Returns []) /\
  (forall id,
      id ∈ steamIds ->
      validateSteamId id = false ->
      fst (findOverlappingGames fetch (Some steamIds) w) = Returns []).
Proof.
  intros Hlen.
  assert (Hempty : forall lib,
             lib ∈ fst (libraries_of fetch steamIds w) ->
             Library.games lib = [] ->
             fst (findOverlappingGames fetch (Some steamIds) w) = Returns []).
  { intros lib Hin He.
    rewrite (findOverlappingGames_intersection fetch steamIds w Hlen).
    cbn [fst]. f_equal. apply (intersection_with_empty _ _ lib Hin He). }
  split; [ exact Hempty | ].
  intros id Hin Hv.
  destruct (libraries_of_invalid steamIds w id Hin Hv) as [lib [Hl He]].
  apply (Hempty lib Hl He).
Qed.
End Composition.

Lemma uncached_call_refreshes_cache_witness :
  let fetch := always (ok_with (library_body library_A)) in
  let first := getOwnedGames fetch alice false stale_world in
  getOwnedGames fetch alice true (elapse 3600000 (snd first))
  = (fst first, elapse 3600000 (snd first)).
Proof.
  intros fetch first. subst first.
  destruct (getOwnedGames fetch alice false stale_world) as [[s | e] w1] eqn:Hcall;
    [ | vm_compute in Hcall; discriminate Hcall ].
  cbn [fst snd].
  apply (uncached_call_refreshes_cache fetch alice stale_world s w1 3600000 Hcall).
  vm_compute. discriminate.
Defined.

Lemma clear_forces_refetch_cleanup_does_not_witness :
  let fetch := always (ok_with (library_body library_A)) in
  let first := getOwnedGames fetch alice true (initial 0) in
  fetched (snd (getOwnedGames fetch alice true
                  (snd (gameCache_clear (elapse 10 (snd first))))))
  = [owned_games_url alice; owned_games_url alice] /\
  getOwnedGames fetch alice true (snd (gameCache_cleanup (elapse 10 (snd first))))
  = (fst first, snd (gameCache_cleanup (elapse 10 (snd first)))).
Proof.
  intros fetch first. subst first.
  destruct (getOwnedGames fetch alice true (initial 0)) as [[s | e] w1] eqn:Hcall;
    [ | vm_compute in Hcall; discriminate Hcall ].
  cbn [fst snd].
  destruct (clear_forces_refetch_cleanup_does_not fetch alice (initial 0) s w1 10
              eq_refl Hcall) as [Hclear Hsweep].
  split; [ exact Hclear | ]. apply Hsweep. vm_compute. discriminate.
Defined.

Lemma same_identifier_overlap_witness :
  let fetch := always (ok_with (library_body library_twice)) in
  findOverlappingGames fetch (Some [alice; alice; alice]) (initial 0)
  = (Returns (to_overlap 3 <$> library_twice),
     snd (getOwnedGames fetch alice true (initial 0))).
Proof.
  intros fetch.
  destruct (getOwnedGames fetch alice true (initial 0)) as [[s | e] w1] eqn:Hcall;
    [ | vm_compute in Hcall; discriminate Hcall ].
  destruct (same_identifier_overlap fetch alice (initial 0) s w1 3) as [H _].
  - lia.
  - vm_compute. discriminate.
  - exact Hcall.
  - cbn [snd]. change [alice; alice; alice] with (replicate 3 alice). rewrite H.
    vm_compute in Hcall. injection Hcall as <- _. reflexivity.
Defined.

Lemma empty_library_empties_overlap_witness :
  fst (findOverlappingGames A_then_B (Some [alice; VStr "bob"; bob]) (initial 0))
  = Returns [].
Proof.
  apply (empty_library_empties_overlap A_then_B [alice; VStr "bob"; bob] (initial 0))
    with (id := VStr "bob").
  - simpl. lia.
  - right. left.
  - reflexivity.
Defined.

Section Budget.
Variable fetch : nat -> string -> reply.

Lemma getOwnedGames_grows id useCache w :
  let w' := snd (getOwnedGames fetch id useCache w) in
  warnings w' = warnings w /\
  exists urls, fetched w' = fetched w ++ urls /\ (length urls <= 1)%nat.
Proof.
  cbv zeta. destruct (validateSteamId id) eqn:Hv.
  - destruct (hit_or_miss id useCache w Hv) as [Hreach | [-> [s Hhit]]].
    + rewrite (getOwnedGames_miss fetch id useCache w Hreach).
      destruct (requestOwnedGames_cases fetch id (looked_up id useCache w))
        as [t [[e H] | [og [gs H]]]]; cbv zeta in H; rewrite H; cbn [snd];
        (split; [ simpl; unfold looked_up; destruct useCache; reflexivity | ]);
        exists [owned_games_url id]; simpl; rewrite looked_up_fetched;
        (split; [ reflexivity | lia ]).
    + rewrite (getOwnedGames_hit fetch id w s Hv Hhit). simpl.
      split; [ reflexivity | ]. exists []. rewrite app_nil_r.
      split; [ reflexivity | simpl; lia ].
  - rewrite (getOwnedGames_invalid fetch id useCache w Hv). simpl.
    split; [ reflexivity | ]. exists []. rewrite app_nil_r.
    split; [ reflexivity | simpl; lia ].
Qed.

Lemma library_of_grows id w :
  let lw := library_of fetch id w in
  warnings (snd lw) = warnings w ++ failure_lines [fst lw] /\
  Library.steamId (fst lw) = id /\
  exists urls, fetched (snd lw) = fetched w ++ urls /\ (length urls <= 1)%nat.
Proof.
  cbv zeta. destruct (getOwnedGames_grows id true w) as [Hw Hf].
  cbv zeta in Hw, Hf. unfold library_of.
  destruct (getOwnedGames fetch id true w) as [[s | e] w']; simpl in *.
  - rewrite Hw, app_nil_r. split; [ reflexivity | split; [ reflexivity | exact Hf ] ].
  - rewrite Hw. split; [ reflexivity | split; [ reflexivity | exact Hf ] ].
Qed.

Lemma libraries_of_grows steamIds : forall w,
  let lw := libraries_of fetch steamIds w in
  warnings (snd lw) = warnings w ++ failure_lines (fst lw) /\
  Library.steamId <$> fst lw = steamIds /\
  exists urls,
    fetched (snd lw) = fetched w ++ urls /\ (length urls <= length steamIds)%nat.
Proof.
  induction steamIds as [| id rest IH]; intros w; cbv zeta.
  - simpl. rewrite !app_nil_r. split; [ reflexivity | split; [ reflexivity | ] ].
    exists []. rewrite app_nil_r. split; [ reflexivity | simpl; lia ].
  - cbn [libraries_of fst snd].
    destruct (library_of_grows id w) as [Hw1 [Hid [u1 [Hf1 Hl1]]]].
    destruct (IH (snd (library_of fetch id w))) as [Hw2 [Hids [u2 [Hf2 Hl2]]]].
    cbv zeta in Hw1, Hid, Hf1, Hw2, Hids, Hf2.
    split; [ | split ].
    + rewrite Hw2, Hw1, <- app_assoc. unfold failure_lines. simpl.
      rewrite app_nil_r. reflexivity.
    + rewrite fmap_cons, Hid, Hids. reflexivity.
    + exists (u1 ++ u2). rewrite Hf2, Hf1, <- app_assoc, length_app.
      split; [ reflexivity | simpl; lia ].
Qed.

(** X14: For at least two identifiers, [findOverlappingGames] collects one library
    for each identifier, in order; it hands at most one URL to the transport
    for each identifier; and it writes one warning for each library whose
    fetch failed, in order, with the identifier and the message of the error:
    the warnings are the only trace of the identifiers that failed. *)
Theorem overlap_requests_and_warnings steamIds w :
  (2 <= length steamIds)%nat ->
  let libraries := fst (libraries_of fetch steamIds w) in
  let w' := snd (findOverlappingGames fetch (Some steamIds) w) in
  Library.steamId <$> libraries = steamIds /\
  warnings w' = warnings w ++ failure_lines libraries /\
  exists urls,
    fetched w' = fetched w ++ urls /\ (length urls <= length steamIds)%nat.
Proof.
  intros Hlen. cbv zeta.
  rewrite (findOverlappingGames_intersection fetch steamIds w Hlen). cbn [snd].
  destruct (libraries_of_grows steamIds w) as [Hw [Hids Hf]].
  split; [ exact Hids | split; [ exact Hw | exact Hf ] ].
Qed.
End Budget.

Lemma overlap_requests_and_warnings_witness :
  let w' := snd (findOverlappingGames A_then_forbidden
                   (Some [alice; VStr "bob"; bob]) (initial 0)) in
  warnings w' = [("bob", "INVALID_STEAM_ID"); ("76561198001234568", "PRIVATE_PROFILE")] /\
  length (fetched w') = 2%nat.
Proof.
  intros w'.
  destruct (overlap_requests_and_warnings A_then_forbidden
              [alice; VStr "bob"; bob] (initial 0)) as [_ [Hw _]];
    [ simpl; lia | ].
  split; [ unfold w'; rewrite Hw | ]; reflexivity.
Defined.

(** ** Manual entries *)

Lemma length_zero_iff (s : string) : (String.length s =? 0)%nat = true <-> s = "".
Proof.
  destruct s; simpl; split; intros H; try reflexivity; discriminate H.
Qed.

Lemma eqb_empty_iff (s : string) : String.eqb s "" = true <-> s = "".
Proof. apply String.eqb_eq. Qed.

Lemma trim_empty : trim "" = "".
Proof. reflexivity. Qed.

(** What [validateGameEntry] finds, for every value of the name: the first
    message when the name is not a string with something left after trimming,
    the second when the name is a string, or an array, of more than 100
    code units, or elements. *)
Lemma validateGameEntry_errors (name : value) :
  Validation.errors (validateGameEntry name) =
  (if match name with
      | VStr s => negb (String.eqb (trim s) "")
      | _ => false
      end
   then [] else ["Game name is required"]) ++
  (if length_gt name 100
   then ["Game name must be less than 100 characters"] else []).
Proof.
  unfold validateGameEntry. cbn [Validation.errors].
  destruct name as [| | [] | z | s | l]; try reflexivity.
  - simpl. destruct (z =? 0); reflexivity.
  - cbn [truthy length_gt].
    destruct s as [| c s]; [ reflexivity | ].
    change (String.eqb (String c s) "") with false. cbn [negb orb andb].
    destruct (trim (String c s)) as [| c' s'] eqn:Ht; cbn [String.length Nat.eqb];
      simpl; destruct (_ <? _)%nat; reflexivity.
  - cbn [truthy length_gt negb orb andb]. simpl. destruct (_ <? _)%nat; reflexivity.
Qed.

Lemma validateGameEntry_valid_cases (name : value) :
  (Validation.isValid (validateGameEntry name) = true \/
   ~ exists s, name = VStr s /\ trim s <> "" /\ (String.length s <= 100)%nat) /\
  ((exists s, name = VStr s /\ trim s <> "" /\ (String.length s <= 100)%nat) \/
   Validation.isValid (validateGameEntry name) = false).
Proof.
  assert (Hiff : Validation.isValid (validateGameEntry name) = true <->
                 exists s, name = VStr s /\ trim s <> "" /\
                           (String.length s <= 100)%nat).
  { unfold validateGameEntry. cbv zeta. cbn [Validation.isValid].
    destruct name as [| | b | z | s | l];
      try (split; [ | intros [s0 [Hs _]]; discriminate Hs ]).
    - discriminate.
    - discriminate.
    - destruct b; discriminate.
    - simpl. destruct (z =? 0); discriminate.
    - cbn [truthy length_gt].
      destruct (String.eqb_spec s "") as [-> | Hs].
      + simpl. split; [ discriminate | ]. intros [s0 [[= <-] [Ht _]]].
        exfalso. apply Ht. reflexivity.
      + cbn [negb orb andb].
        destruct (trim s) as [| c t] eqn:Ht.
        * simpl. split.
          -- destruct (_ <? _)%nat; discriminate.
          -- intros [s0 [[= <-] [Hne _]]]. exfalso. congruence.
        * cbn [String.length Nat.eqb app].
          destruct (Nat.ltb_spec 100 (String.length s)) as [Hlong | Hshort].
          -- simpl. split; [ discriminate | ].
             intros [s0 [[= <-] [_ Hlen]]]. exfalso. lia.
          -- simpl. split; [ | reflexivity ]. intros _. exists s.
             split; [ reflexivity | ]. split; [ congruence | exact Hshort ].
    - cbn [truthy length_gt negb orb andb]. simpl.
      destruct (_ <? _)%nat; discriminate. }
  destruct (Validation.isValid (validateGameEntry name)) eqn:Hv.
  - split; [ left; reflexivity | left; apply Hiff; reflexivity ].
  - split; [ right | right; reflexivity ].
    intros H. apply Hiff in H. discriminate H.
Qed.

(** X15: [validateGameEntry] accepts a name exactly when it is a string that is
    not blank and has at most 100 code units, white space around it counted:
    a name of exactly 100 is accepted, whatever the second message says, and
    a string of more than 100 is rejected even when trimming would shorten
    it; and [isValid] says that there is no error. *)
Theorem validateGameEntry_valid_iff (name : value) :
  (Validation.isValid (validateGameEntry name) = true <->
   exists s, name = VStr s /\ trim s <> "" /\ (String.length s <= 100)%nat) /\
  (Validation.isValid (validateGameEntry name) = true <->
   Validation.errors (validateGameEntry name) = []).
Proof.
  assert (Hvalid : Validation.isValid (validateGameEntry name) = true <->
                   Validation.errors (validateGameEntry name) = []).
  { unfold validateGameEntry. cbv zeta.
    cbn [Validation.isValid Validation.errors].
    match goal with
    | |- (length ?E =? 0)%nat = true <-> _ => generalize E
    end.
    intros E. rewrite Nat.eqb_eq. apply length_zero_iff_nil. }
  split; [ | exact Hvalid ].
  rewrite Hvalid, validateGameEntry_errors.
  destruct name as [| | b | z | s | l];
    try (split; [ intros H; destruct (length_gt _ 100); discriminate H
                | intros [s [Hs _]]; discriminate Hs ]).
  cbn [length_gt].
  destruct (String.eqb (trim s) "") eqn:Ht; cbn [negb].
  - apply String.eqb_eq in Ht. split.
    + intros H. destruct (_ <? _)%nat; discriminate H.
    + intros [s' [[= <-] [Hne _]]]. contradiction.
  - apply String.eqb_neq in Ht.
    destruct (Nat.ltb_spec 100 (String.length s)) as [Hlong | Hshort].
    + split; [ discriminate | ]. intros [s' [[= <-] [_ Hlen]]]. lia.
    + split; [ | reflexivity ]. intros _. exists s. repeat split; assumption.
Qed.

(** *** Trimming *)

Lemma trimEnd_idempotent (s : string) : trimEnd (trimEnd s) = trimEnd s.
Proof.
  induction s as [| c s IH]; [ reflexivity | ].
  cbn [trimEnd]. destruct (trimEnd s) as [| c' rest] eqn:Hs.
  - destruct (is_whitespace c) eqn:Hc; [ reflexivity | ].
    cbn [trimEnd]. rewrite Hc. reflexivity.
  - cbn [trimEnd] in *. rewrite IH. reflexivity.
Qed.

Lemma trimStart_starts_clean (s : string) : starts_clean (trimStart s).
Proof.
  induction s as [| c s IH]; [ exact I | ].
  cbn [trimStart]. destruct (is_whitespace c) eqn:Hc; [ exact IH | exact Hc ].
Qed.

Lemma trimStart_clean (s : string) : starts_clean s -> trimStart s = s.
Proof.
  destruct s as [| c s]; [ reflexivity | ]. simpl. intros ->. reflexivity.
Qed.

Lemma trimEnd_starts_clean (s : string) : starts_clean s -> starts_clean (trimEnd s).
Proof.
  destruct s as [| c s]; [ trivial | ]. simpl. intros Hc.
  destruct (trimEnd s); [ rewrite Hc | ]; exact Hc.
Qed.

Lemma trim_idempotent (s : string) : trim (trim s) = trim s.
Proof.
  unfold trim.
  rewrite (trimStart_clean (trimEnd (trimStart s))).
  - apply trimEnd_idempotent.
  - apply trimEnd_starts_clean, trimStart_starts_clean.
Qed.

Lemma trimEnd_length (s : string) : (String.length (trimEnd s) <= String.length s)%nat.
Proof.
  induction s as [| c s IH]; [ simpl; lia | ].
  cbn [trimEnd]. destruct (trimEnd s) as [| c' r].
  - destruct (is_whitespace c); simpl; lia.
  - simpl in *. lia.
Qed.

Lemma trimStart_length (s : string) :
  (String.length (trimStart s) <= String.length s)%nat.
Proof.
  induction s as [| c s IH]; [ simpl; lia | ].
  cbn [trimStart]. destruct (is_whitespace c); simpl in *; lia.
Qed.

Lemma trim_length (s : string) : (String.length (trim s) <= String.length s)%nat.
Proof.
  unfold trim. pose proof (trimEnd_length (trimStart s)).
  pose proof (trimStart_length s). lia.
Qed.

(** *** Creating an entry *)

Lemma createManualGameEntry_valid now rand s options :
  trim s <> "" ->
  (String.length s <= 100)%nat ->
  createManualGameEntry now rand (VStr s) options =
  inr {| ManualGame.appId := "manual_" +:+ ToString (VNum now) +:+ "_" +:+ rand;
         ManualGame.name := trim s;
         ManualGame.source := "manual";
         ManualGame.playtimeForever := or_else (Options.playtime options) (VNum 0);
         ManualGame.imgIconUrl := or_else (Options.iconUrl options) VNull;
         ManualGame.imgLogoUrl := or_else (Options.logoUrl options) VNull;
         ManualGame.addedAt := now;
         ManualGame.addedBy := or_else (Options.userId options) (VStr "anonymous") |}.
Proof.
  intros Ht Hl. unfold createManualGameEntry.
  destruct (proj1 (validateGameEntry_valid_cases (VStr s))) as [-> | Hno].
  - reflexivity.
  - exfalso. apply Hno. exists s. repeat split; assumption.
Qed.

Lemma createManualGameEntry_invalid now rand name options :
  Validation.isValid (validateGameEntry name) = false ->
  createManualGameEntry now rand name options =
  inl (Error ("Invalid game entry: " +:+
              join ", " (Validation.errors (validateGameEntry name)))).
Proof. intros H. unfold createManualGameEntry. rewrite H. reflexivity. Qed.

(** X16: [createManualGameEntry] returns an entry exactly for the names
    [validateGameEntry] accepts: the entry carries the trimmed name, which is
    not empty and not longer than the name given, the source "manual" and the
    instant of the call; for every other name, of whatever type, it throws an
    [Error] whose message lists the validation errors, and never a
    [TypeError] from trimming something that is not a string. *)
Theorem createManualGameEntry_spec now rand name options :
  match createManualGameEntry now rand name options with
  | inr entry =>
      exists s,
        name = VStr s /\ trim s <> "" /\ (String.length s <= 100)%nat /\
        ManualGame.name entry = trim s /\
        (String.length (ManualGame.name entry) <= 100)%nat /\
        trim (ManualGame.name entry) = ManualGame.name entry /\
        ManualGame.source entry = "manual" /\
        ManualGame.addedAt entry = now /\
        ManualGame.appId entry
        = "manual_" +:+ ToString (VNum now) +:+ "_" +:+ rand
  | inl e =>
      Validation.isValid (validateGameEntry name) = false /\
      e = Error ("Invalid game entry: " +:+
                 join ", " (Validation.errors (validateGameEntry name))) /\
      (message e = "Invalid game entry: Game name is required" \/
       message e = "Invalid game entry: Game name must be less than 100 characters" \/
       message e = "Invalid game entry: Game name is required, Game name must be less than 100 characters")
  end.
Proof.
  destruct (proj2 (validateGameEntry_valid_cases name)) as [[s [-> [Ht Hl]]] | Hinv].
  - rewrite (createManualGameEntry_valid now rand s options Ht Hl).
    exists s. cbn [ManualGame.name ManualGame.source ManualGame.addedAt ManualGame.appId].
    split; [ reflexivity | ]. split; [ exact Ht | ]. split; [ exact Hl | ].
    split; [ reflexivity | ].
    split; [ pose proof (trim_length s); lia | ].
    split; [ apply trim_idempotent | ]. repeat split.
  - rewrite (createManualGameEntry_invalid now rand name options Hinv).
    split; [ exact Hinv | ]. split; [ reflexivity | ].
    cbn [message Error]. rewrite validateGameEntry_errors.
    assert (Hne : Validation.errors (validateGameEntry name) <> []).
    { intros He. revert Hinv. unfold validateGameEntry in *. cbv zeta in *.
      cbn [Validation.isValid Validation.errors] in *. rewrite He. discriminate. }
    rewrite validateGameEntry_errors in Hne.
    destruct (match name with VStr s => negb (String.eqb (trim s) "") | _ => false end);
      destruct (length_gt name 100); simpl in *.
    + right. left. reflexivity.
    + contradiction.
    + right. right. reflexivity.
    + left. reflexivity.
Qed.

(** *** Parsing a list of names *)

Lemma createManualGameEntry_clean_line now rand line options :
  trim line = line ->
  line <> "" ->
  createManualGameEntry now rand (VStr line) options =
  if (String.length line <=? 100)%nat
  then inr {| ManualGame.appId := "manual_" +:+ ToString (VNum now) +:+ "_" +:+ rand;
              ManualGame.name := line;
              ManualGame.source := "manual";
              ManualGame.playtimeForever := or_else (Options.playtime options) (VNum 0);
              ManualGame.imgIconUrl := or_else (Options.iconUrl options) VNull;
              ManualGame.imgLogoUrl := or_else (Options.logoUrl options) VNull;
              ManualGame.addedAt := now;
              ManualGame.addedBy := or_else (Options.userId options) (VStr "anonymous") |}
  else inl (Error "Invalid game entry: Game name must be less than 100 characters").
Proof.
  intros Ht Hne. destruct (Nat.leb_spec (String.length line) 100) as [Hl | Hl].
  - rewrite createManualGameEntry_valid; [ rewrite Ht; reflexivity | congruence | exact Hl ].
  - rewrite createManualGameEntry_invalid.
    + rewrite validateGameEntry_errors. cbn [length_gt]. rewrite Ht.
      destruct (String.eqb_spec line "") as [He | _]; [ contradiction | ].
      destruct (Nat.ltb_spec 100 (String.length line)); [ reflexivity | lia ].
    + destruct (proj2 (validateGameEntry_valid_cases (VStr line)))
        as [[s [[= <-] [_ Hlen]]] | H]; [ lia | exact H ].
Qed.

Lemma entry_lines_clean text :
  Forall (fun line => trim line = line /\ line <> "") (entry_lines text).
Proof.
  unfold entry_lines. apply Forall_forall. intros line Hin.
  apply list_elem_of_In, filter_In in Hin as [Hin Hlen].
  apply in_map_iff in Hin as [raw [<- _]].
  split; [ apply trim_idempotent | ].
  intros He. rewrite He in Hlen. discriminate Hlen.
Qed.

Lemma numbered_count (lines : list string) : forall first,
  (length (filter (fun line => (String.length line <= 100)%nat) lines) +
   length (filter (fun p : nat * string => (100 < String.length p.2)%nat)
                  (numbered first lines))
   = length lines)%nat.
Proof.
  induction lines as [| line rest IH]; intros first; [ reflexivity | ].
  change (numbered first (line :: rest))
    with ((first, line) :: numbered (S first) rest).
  rewrite !filter_cons. specialize (IH (S first)).
  destruct (le_lt_dec (String.length line) 100).
  - rewrite decide_True by (simpl; lia). rewrite decide_False by (simpl; lia).
    simpl. lia.
  - rewrite decide_False by (simpl; lia). rewrite decide_True by (simpl; lia).
    simpl. lia.
Qed.

Section ParseFacts.
Variable now_at : nat -> Z.
Variable rand_at : nat -> string.

Lemma parse_lines_spec options lines : forall i games errors,
  Forall (fun line => trim line = line /\ line <> "") lines ->
  exists more,
    parse_lines now_at rand_at options i lines games errors =
    (games ++ more,
     errors ++ ((fun p => too_long_message p.1) <$>
                  filter (fun p => (100 < String.length p.2)%nat)
                         (numbered (S i) lines))) /\
    ManualGame.name <$> more
    = filter (fun line => (String.length line <= 100)%nat) lines /\
    Forall (fun g => ManualGame.source g = "manual") more.
Proof.
  induction lines as [| line rest IH]; intros i games errors Hclean.
  - exists []. simpl. rewrite !app_nil_r. repeat split. constructor.
  - apply Forall_cons in Hclean as [[Ht Hne] Hrest].
    cbn [parse_lines].
    rewrite (createManualGameEntry_clean_line _ _ line options Ht Hne).
    unfold numbered. cbn [length seq zip zip_with].
    rewrite !filter_cons. cbn [fst snd].
    destruct (Nat.leb_spec (String.length line) 100) as [Hl | Hl].
    + match goal with
      | |- context [parse_lines _ _ _ _ _ (games ++ [?g]) _] =>
          destruct (IH (S i) (games ++ [g]) errors Hrest)
            as [more [Hrun [Hnames Hsrc]]];
          exists (g :: more)
      end.
      rewrite Hrun, <- app_assoc.
      rewrite decide_False by lia. rewrite decide_True by lia.
      split; [ reflexivity | ]. split.
      * rewrite fmap_cons, Hnames. reflexivity.
      * constructor; [ reflexivity | exact Hsrc ].
    + match goal with
      | |- context [parse_lines _ _ _ _ _ games (errors ++ [?m])] =>
          destruct (IH (S i) games (errors ++ [m]) Hrest)
            as [more [Hrun [Hnames Hsrc]]];
          exists more
      end.
      rewrite Hrun, <- app_assoc.
      rewrite decide_True by lia. rewrite decide_False by lia.
      split; [ | split; assumption ].
      rewrite fmap_cons. cbn [message Error fst app]. unfold too_long_message.
      replace (Z.of_nat i + 1) with (Z.of_nat (S i)) by lia.
      reflexivity.
Qed.

(** X17: [parseGameListFromText] returns the empty array for anything that is not
    a string with something in it.  For such a string it returns the summary
    of the lines that are not blank, trimmed: the names of the games are, in
    order, the lines of at most 100 code units; the errors are, in order, one
    message for each longer line, carrying the number the line has among the
    lines that are not blank (not its number in the text); and the two counts
    add up to the number of lines processed. *)
Theorem parseGameListFromText_summary gameListText options :
  ((forall text, gameListText = VStr text -> text = "") ->
   parseGameListFromText now_at rand_at gameListText options = EmptyArray) /\
  (forall text,
      gameListText = VStr text -> text <> "" ->
      exists games errors,
        parseGameListFromText now_at rand_at gameListText options
        = Summary games errors (Z.of_nat (length (entry_lines text)))
                  (Z.of_nat (length games)) (Z.of_nat (length errors)) /\
        ManualGame.name <$> games
        = filter (fun line => (String.length line <= 100)%nat) (entry_lines text) /\
        errors
        = (fun p => too_long_message p.1) <$>
            filter (fun p => (100 < String.length p.2)%nat)
                   (numbered 1 (entry_lines text)) /\
        (length games + length errors = length (entry_lines text))%nat /\
        Forall (fun g => ManualGame.source g = "manual") games).
Proof.
  split.
  - intros Hempty. destruct gameListText as [| | b | z | text | l]; try reflexivity.
    rewrite (Hempty text eq_refl). reflexivity.
  - intros text -> Hne. unfold parseGameListFromText. cbn [truthy].
    destruct (String.eqb_spec text "") as [He | _]; [ contradiction | ].
    cbn [negb]. fold (entry_lines text).
    destruct (parse_lines_spec options (entry_lines text) 0 [] []
                (entry_lines_clean text)) as [games [Hrun [Hnames Hsrc]]].
    rewrite Hrun. cbn [app].
    eexists _, _. split; [ reflexivity | ]. split; [ exact Hnames | ].
    split; [ reflexivity | ]. split; [ | exact Hsrc ].
    rewrite <- (length_fmap ManualGame.name), Hnames, length_fmap.
    apply numbered_count.
Qed.
End ParseFacts.

Lemma parseGameListFromText_summary_witness :
  parseGameListFromText (fun _ => 7) (fun _ => "k3j9x0q2a") (VStr "") Options.none
  = EmptyArray /\
  exists games errors,
    parseGameListFromText (fun _ => 7) (fun _ => "k3j9x0q2a")
      (VStr "  Dota 2
 
Rust ") Options.none
    = Summary games errors 2 2 0 /\
    ManualGame.name <$> games = ["Dota 2"; "Rust"].
Proof.
  split.
  - apply (parseGameListFromText_summary (fun _ => 7) (fun _ => "k3j9x0q2a")
             (VStr "") Options.none).
    intros text [= <-]. reflexivity.
  - destruct (proj2 (parseGameListFromText_summary (fun _ => 7) (fun _ => "k3j9x0q2a")
                       (VStr "  Dota 2
 
Rust ") Options.none) _ eq_refl) as [games [errors [Hrun [Hnames [Herr _]]]]].
    + discriminate.
    + exists games, errors. split; [ | exact Hnames ].
      rewrite Hrun. apply (f_equal length) in Hnames. rewrite length_fmap in Hnames.
      rewrite Herr, Hnames. reflexivity.
Defined.

(** *** Suggestions *)

Lemma List_filter_sublist {A} (f : A -> bool) (l : list A) :
  List.filter f l `sublist_of` l.
Proof.
  induction l as [| x l IH]; simpl; [ constructor | ].
  destruct (f x); [ apply sublist_skip | apply sublist_cons ]; exact IH.
Qed.

Lemma slice_to_sublist {A} (limit : Z) (l : list A) : slice_to limit l `sublist_of` l.
Proof. unfold slice_to. destruct (limit <? 0); apply sublist_take. Qed.

Lemma slice_to_length {A} (limit : Z) (l : list A) :
  0 <= limit -> Z.of_nat (length (slice_to limit l)) <= limit.
Proof.
  intros H. unfold slice_to. destruct (Z.ltb_spec limit 0); [ lia | ].
  rewrite length_take. lia.
Qed.

(** X18: [getGameSuggestions] on a string never throws.  Its suggestions are
    popular games, in the order of the list of popular games; there are at
    most [limit] of them when [limit] is not negative; when the string has
    fewer than two code units they are the first popular games, and otherwise
    each of them contains the string, case apart.  On a value that is not a
    string it returns the first popular games when the value is falsy or an
    array of fewer than two elements, and throws a TypeError otherwise. *)
Theorem getGameSuggestions_spec (partialName : value) (limit : Z) :
  match getGameSuggestions partialName limit with
  | inr suggestions =>
      suggestions `sublist_of` POPULAR_GAMES_SUGGESTIONS /\
      (0 <= limit -> Z.of_nat (length suggestions) <= limit) /\
      (truthy partialName = false \/ length_lt partialName 2 = true ->
       suggestions = slice_to limit POPULAR_GAMES_SUGGESTIONS) /\
      (forall s, partialName = VStr s -> (2 <= String.length s)%nat ->
                 forall g, g ∈ suggestions ->
                           includes (toLowerCase g) (toLowerCase s) = true)
  | inl e =>
      e = TypeError "partialName.toLowerCase is not a function" /\
      truthy partialName = true /\ length_lt partialName 2 = false /\
      forall s, partialName <> VStr s
  end.
Proof.
  unfold getGameSuggestions.
  destruct (negb (truthy partialName) || length_lt partialName 2) eqn:Hshort.
  - split; [ apply slice_to_sublist | ]. split; [ apply slice_to_length | ].
    split; [ reflexivity | ].
    intros s -> Hlen. exfalso. cbn [truthy length_lt] in Hshort.
    destruct (Nat.ltb_spec (String.length s) 2) as [Hlt | _]; [ lia | ].
    rewrite orb_false_r in Hshort. apply negb_true_iff, negb_false_iff in Hshort.
    apply String.eqb_eq in Hshort. subst s. simpl in Hlen. lia.
  - apply orb_false_iff in Hshort as [Ht Hl]. apply negb_false_iff in Ht.
    destruct partialName as [| | b | z | s | l].
    + discriminate Ht.
    + discriminate Ht.
    + repeat split; [ exact Ht | discriminate ].
    + repeat split; [ exact Ht | discriminate ].
    + split; [ | split; [ | split ] ].
      * etransitivity; [ apply slice_to_sublist | apply List_filter_sublist ].
      * apply slice_to_length.
      * intros [H | H]; congruence.
      * intros s' [= <-] _ g Hg.
        apply (sublist_subseteq _ _ (slice_to_sublist limit _)) in Hg.
        apply list_elem_of_In, filter_In in Hg as [_ Hg]. exact Hg.
    + repeat split; [ exact Hl | discriminate ].
Qed.

Lemma getGameSuggestions_spec_witness :
  getGameSuggestions (VStr "ru") 5 = inr ["Rust"] /\
  getGameSuggestions VUndefined 2 = inr ["Counter-Strike 2"; "Dota 2"].
Proof.
  split.
  - pose proof (getGameSuggestions_spec (VStr "ru") 5) as H.
    destruct (getGameSuggestions (VStr "ru") 5) as [e | l] eqn:Hrun;
      [ destruct H as [_ [_ [_ H]]]; exfalso; apply (H "ru"); reflexivity | ].
    vm_compute in Hrun. exact (eq_sym Hrun).
  - pose proof (getGameSuggestions_spec VUndefined 2) as H.
    destruct (getGameSuggestions VUndefined 2) as [e | l] eqn:Hrun;
      [ destruct H as [_ [H _]]; discriminate H | ].
    destruct H as [_ [_ [H _]]]. rewrite H by (left; reflexivity). reflexivity.
Defined.

(** *** Manual entries against a Steam library *)

Lemma prefix_refl (s : string) : String.prefix s s = true.
Proof.
  induction s as [| c s IH]; [ reflexivity | ].
  simpl. destruct (ascii_dec c c); [ exact IH | contradiction ].
Qed.

Lemma includes_refl (s : string) : includes s s = true.
Proof. destruct s; unfold includes; fold includes; rewrite prefix_refl; reflexivity. Qed.

Lemma exact_is_fuzzy m g : exact_match m g -> fuzzy_match m g = true.
Proof.
  unfold exact_match, fuzzy_match. intros ->. rewrite includes_refl. reflexivity.
Qed.

Lemma fold_left_push {A B} (h : A -> list B) (l : list A) : forall acc,
  fold_left (fun acc x => acc ++ h x) l acc = acc ++ flat_map h l.
Proof.
  induction l as [| x l IH]; intros acc; simpl.
  - rewrite app_nil_r. reflexivity.
  - rewrite IH, app_assoc. reflexivity.
Qed.

Lemma findCommonGames_cons m ms gs :
  findCommonGames (m :: ms) gs = findCommonGames [m] gs ++ findCommonGames ms gs.
Proof.
  unfold findCommonGames. cbn [fold_left].
  match goal with
  | |- fold_left ?F ms ?a = ?a ++ fold_left ?F ms [] =>
      generalize a; induction ms as [| m' ms' IH]; intros acc
  end.
  - simpl. rewrite app_nil_r. reflexivity.
  - cbn [fold_left]. rewrite IH. symmetry. rewrite IH.
    rewrite app_assoc. f_equal.
    destruct (match List.find _ gs with Some _ => _ | None => _ end);
      [ reflexivity | rewrite app_nil_r; reflexivity ].
Qed.

(** What [findCommonGames] does with one manual entry. *)
Lemma findCommonGames_one m gs :
  (exists g,
      findCommonGames [m] gs
      = [ {| CommonGame.steam := g; CommonGame.manualEntry := m;
             CommonGame.matchType := "exact" |} ] /\
      In g gs /\ exact_match m g) \/
  (exists g,
      findCommonGames [m] gs
      = [ {| CommonGame.steam := g; CommonGame.manualEntry := m;
             CommonGame.matchType := "fuzzy" |} ] /\
      In g gs /\ fuzzy_match m g = true /\
      forall g', In g' gs -> ~ exact_match m g') \/
  (findCommonGames [m] gs = [] /\ forall g, In g gs -> fuzzy_match m g = false).
Proof.
  unfold findCommonGames. cbn [fold_left app].
  destruct (List.find
              (fun steamGame =>
                 String.eqb (toLowerCase (Game.name steamGame))
                            (toLowerCase (ManualGame.name m))) gs)
    as [g |] eqn:Hexact.
  - left. exists g. apply find_some in Hexact as [Hin Heq].
    rewrite Heq. split; [ reflexivity | ]. split; [ exact Hin | ].
    apply String.eqb_eq, Heq.
  - right.
    assert (Hnone : forall g', In g' gs -> ~ exact_match m g').
    { intros g' Hin He. apply (find_none _ _ Hexact) in Hin.
      apply String.eqb_neq in Hin. apply Hin, He. }
    destruct (List.find
                (fun steamGame =>
                   includes (toLowerCase (Game.name steamGame))
                            (toLowerCase (ManualGame.name m)) ||
                   includes (toLowerCase (ManualGame.name m))
                            (toLowerCase (Game.name steamGame))) gs)
      as [g |] eqn:Hfuzzy.
    + left. exists g. apply find_some in Hfuzzy as [Hin Hf].
      destruct (String.eqb_spec (toLowerCase (Game.name g))
                  (toLowerCase (ManualGame.name m))) as [He | _].
      * exfalso. apply (Hnone g Hin He).
      * split; [ reflexivity | ]. split; [ exact Hin | ].
        split; [ exact Hf | exact Hnone ].
    + right. split; [ reflexivity | ].
      intros g Hin. apply (find_none _ _ Hfuzzy g Hin).
Qed.

(** X19: [findCommonGames] goes through the manual entries in order and keeps the
    ones for which some Steam game has a name that contains, or is contained
    in, the name of the entry, case apart; each entry kept comes once, with a
    game of the Steam library: a game whose name equals its name, case apart,
    marked "exact", whenever the library has one, and otherwise a game whose
    name contains or is contained in its name, marked "fuzzy". *)
Theorem findCommonGames_spec manualGames steamGames :
  let common := findCommonGames manualGames steamGames in
  CommonGame.manualEntry <$> common
  = List.filter (fun m => existsb (fuzzy_match m) steamGames) manualGames /\
  Forall
    (fun c =>
       In (CommonGame.steam c) steamGames /\
       ((CommonGame.matchType c = "exact" /\
         exact_match (CommonGame.manualEntry c) (CommonGame.steam c)) \/
        (CommonGame.matchType c = "fuzzy" /\
         fuzzy_match (CommonGame.manualEntry c) (CommonGame.steam c) = true /\
         forall g, In g steamGames -> ~ exact_match (CommonGame.manualEntry c) g)))
    common.
Proof.
  cbv zeta. induction manualGames as [| m ms [IHn IHf]]; [ split; [ reflexivity | constructor ] | ].
  rewrite findCommonGames_cons, fmap_app, Forall_app. cbn [List.filter].
  destruct (findCommonGames_one m steamGames)
    as [[g [-> [Hin He]]] | [[g [-> [Hin [Hf Hnone]]]] | [-> Hnone]]].
  - assert (Hex : existsb (fuzzy_match m) steamGames = true)
      by (apply existsb_exists; exists g; split; [ exact Hin | apply exact_is_fuzzy, He ]).
    rewrite Hex. split; [ simpl; f_equal; exact IHn | ].
    split; [ | exact IHf ]. constructor; [ | constructor ].
    split; [ exact Hin | left; split; [ reflexivity | exact He ] ].
  - assert (Hex : existsb (fuzzy_match m) steamGames = true)
      by (apply existsb_exists; exists g; split; assumption).
    rewrite Hex. split; [ simpl; f_equal; exact IHn | ].
    split; [ | exact IHf ]. constructor; [ | constructor ].
    split; [ exact Hin | right; split; [ reflexivity | split; assumption ] ].
  - assert (Hex : existsb (fuzzy_match m) steamGames = false).
    { destruct (existsb (fuzzy_match m) steamGames) eqn:Hx; [ | reflexivity ].
      apply existsb_exists in Hx as [g [Hin Hf]].
      rewrite (Hnone g Hin) in Hf. discriminate Hf. }
    rewrite Hex. split; [ exact IHn | ]. split; [ constructor | exact IHf ].
Qed.

(** ** Normalising raw games *)

Lemma or_else_defined x d : defined d -> defined (or_else x d).
Proof.
  intros Hd. unfold or_else. destruct (truthy x) eqn:Hx; [ | exact Hd ].
  destruct x; try discriminate Hx; split; discriminate.
Qed.

Lemma or_else_cases x d :
  (truthy x = true /\ or_else x d = x) \/ (truthy x = false /\ or_else x d = d).
Proof. unfold or_else. destruct (truthy x); [ left | right ]; split; reflexivity. Qed.

(** X20: [processGamesList] gives one record for each raw game, in order, with the
    application id, the name and the two image references as they are; the two
    playtimes and the statistics flag are never undefined or null in the
    result: each is the raw value when that value is truthy, and 0, 0 and
    false otherwise, so that an absent playtime and a playtime of 0 both come
    out as 0. *)
Theorem processGamesList_normalises (games : list RawGame.t) :
  Forall2
    (fun raw p =>
       ProcessedGame.appId p = RawGame.appid raw /\
       ProcessedGame.name p = RawGame.name raw /\
       ProcessedGame.imgIconUrl p = RawGame.img_icon_url raw /\
       ProcessedGame.imgLogoUrl p = RawGame.img_logo_url raw /\
       ((truthy (RawGame.playtime_forever raw) = true /\
         ProcessedGame.playtimeForever p = RawGame.playtime_forever raw) \/
        (truthy (RawGame.playtime_forever raw) = false /\
         ProcessedGame.playtimeForever p = VNum 0)) /\
       ((truthy (RawGame.playtime_2weeks raw) = true /\
         ProcessedGame.playtime2Weeks p = RawGame.playtime_2weeks raw) \/
        (truthy (RawGame.playtime_2weeks raw) = false /\
         ProcessedGame.playtime2Weeks p = VNum 0)) /\
       ((truthy (RawGame.has_community_visible_stats raw) = true /\
         ProcessedGame.hasPublicStatsSupport p
         = RawGame.has_community_visible_stats raw) \/
        (truthy (RawGame.has_community_visible_stats raw) = false /\
         ProcessedGame.hasPublicStatsSupport p = VBool false)) /\
       defined (ProcessedGame.playtimeForever p) /\
       defined (ProcessedGame.playtime2Weeks p) /\
       defined (ProcessedGame.hasPublicStatsSupport p))
    games (processGamesList games).
Proof.
  induction games as [| raw games IH]; [ constructor | ].
  cbn [processGamesList map]. constructor; [ | exact IH ].
  cbn [ProcessedGame.appId ProcessedGame.name ProcessedGame.imgIconUrl
       ProcessedGame.imgLogoUrl ProcessedGame.playtimeForever
       ProcessedGame.playtime2Weeks ProcessedGame.hasPublicStatsSupport].
  split; [ reflexivity | ]. split; [ reflexivity | ].
  split; [ reflexivity | ]. split; [ reflexivity | ].
  split; [ apply or_else_cases | ]. split; [ apply or_else_cases | ].
  split; [ apply or_else_cases | ].
  split; [ | split ]; apply or_else_defined; split; discriminate.
Qed.
